(** * lru-cache-x: a bounded LRU cache with lazy TTL expiry

    Shallow embedding of [src/index.ts] (classes [LruCache] and
    [LruCacheEvents]) and the properties of its specification.

    Modelling choices, all taken from the source:
    - the JavaScript [Map] is an association list in insertion order
      (oldest binding first), which is the iteration order the class relies
      on for recency;
    - methods run in a state-and-exception monad over a [World]: the cache
      object itself, the process clock read by [Date.now()], the record of
      calls received by the [onEvict] callback and the [console.error] log.
      A thrown exception keeps the state reached so far, as in JavaScript;
    - a JavaScript [number] is [NaN], an infinity or a rational, which is
      enough for the three tests the class performs on numbers
      ([typeof], [> 0] / [<= 0], [Number.isInteger]); integer values
      (timestamps, TTLs, counters, capacity) are carried as [Z], and the sum
      of a clock value and a TTL is the integer sum, which is what the
      source's double addition gives while the values stay within [2^53]
      (any value [Date.now()] can return is below that). *)

From Stdlib Require Import List ZArith QArith Bool String Lia.
Import ListNotations.
Local Open Scope Z_scope.

(** ** JavaScript values used by the class *)

Inductive JsNumber : Type :=
| NaN
| PosInfinity
| NegInfinity
| Finite (q : Q).

(** [Number.isInteger(x)] *)
Definition Number_isInteger (x : JsNumber) : bool :=
  match x with
  | Finite q => Qnum q mod Z.pos (Qden q) =? 0
  | _ => false
  end.

(** [x > 0] *)
Definition Number_gt0 (x : JsNumber) : bool :=
  match x with
  | PosInfinity => true
  | Finite q => 0 <? Qnum q
  | _ => false
  end.

(** [x <= 0] *)
Definition Number_le0 (x : JsNumber) : bool :=
  match x with
  | NegInfinity => true
  | Finite q => Qnum q <=? 0
  | _ => false
  end.

(** The integer carried by an integer-valued number. *)
Definition Number_toZ (x : JsNumber) : Z :=
  match x with
  | Finite q => Qnum q / Z.pos (Qden q)
  | _ => 0
  end.

Definition Number_ofZ (z : Z) : JsNumber := Finite (inject_Z z).

(** An argument of type [number | null | undefined]. *)
Inductive OptNumber : Type :=
| Undefined
| Null
| Num (x : JsNumber).

(** A thrown value: [new Error(message)]. *)
Inductive Exn : Type :=
| Error (message : string).

(** How a call ends: it returns, or it throws. *)
Inductive Completion (A : Type) : Type :=
| Normal (a : A)
| Throw (e : Exn).
Arguments Normal {A} a.
Arguments Throw {A} e.

(** [Key extends PropertyKey]: keys are compared by the [Map] (SameValueZero),
    which on property keys is a decidable equality. *)
Class PropertyKey (K : Type) : Type :=
  Key_eq_dec : forall x y : K, {x = y} + {x <> y}.

#[export] Instance string_PropertyKey : PropertyKey string := string_dec.

Section Model.

Context {Key Value : Type} `{PropertyKey Key}.

(** ** Data model *)

Record CacheEntry : Type := mkEntry {
  value : Value;
  expiresAt : option Z
}.

(** [Map<Key, CacheEntry<Value>>], in insertion order. *)
Definition Map : Type := list (Key * CacheEntry).

Fixpoint Map_get (key : Key) (m : Map) : option CacheEntry :=
  match m with
  | [] => None
  | (k, e) :: m' => if Key_eq_dec key k then Some e else Map_get key m'
  end.

Definition Map_has (key : Key) (m : Map) : bool :=
  match Map_get key m with Some _ => true | None => false end.

(** [Map.prototype.delete]: the binding of [key] goes, the others keep their
    order. *)
Fixpoint Map_delete (key : Key) (m : Map) : Map :=
  match m with
  | [] => []
  | (k, e) :: m' =>
      if Key_eq_dec key k then Map_delete key m' else (k, e) :: Map_delete key m'
  end.

(** [Map.prototype.set]: an existing binding is overwritten in place, a new
    one is appended. *)
Fixpoint Map_set (key : Key) (e : CacheEntry) (m : Map) : Map :=
  match m with
  | [] => [(key, e)]
  | (k, e') :: m' =>
      if Key_eq_dec key k then (k, e) :: m' else (k, e') :: Map_set key e m'
  end.

Definition Map_keys (m : Map) : list Key := map fst m.

Definition Map_size (m : Map) : Z := Z.of_nat (List.length m).

(** The [onEvict] callback. It is handed the calls it has already received,
    so its behaviour may depend on its own history; it returns [Some e] when
    it throws [e]. It has no access to the cache. *)
Definition Callback : Type := list (Key * Value) -> Key -> Value -> option Exn.

Record LruCacheOptions : Type := mkOptions {
  opt_onEvict : option Callback;
  opt_trackStats : option bool;
  opt_ttl : OptNumber
}.

Record LruCacheEvents : Type := mkEvents {
  onEvict : option Callback
}.

Record LruCache : Type := mkCache {
  capacity : Z;
  cache : Map;
  events : LruCacheEvents;
  defaultTtl : option Z;
  hits : Z;
  misses : Z;
  evictions : Z;
  trackStats : bool
}.

(** The cache object together with what surrounds it. [clock n] is the value
    of the [n]-th read of [Date.now()], [tick] the number of reads so far. *)
Record World : Type := mkWorld {
  self : LruCache;
  clock : nat -> Z;
  tick : nat;
  sinkCalls : list (Key * Value);
  console : list Exn
}.

(** ** The monad of methods *)

Definition M (A : Type) : Type := World -> Completion A * World.

Definition ret {A} (a : A) : M A := fun w => (Normal a, w).

Definition bind {A B} (c : M A) (k : A -> M B) : M B :=
  fun w =>
    match c w with
    | (Normal a, w') => k a w'
    | (Throw e, w') => (Throw e, w')
    end.

Definition throw {A} (e : Exn) : M A := fun w => (Throw e, w).

(** [try { body } catch (error) { handler(error) }] *)
Definition try_catch {A} (body : M A) (handler : Exn -> M A) : M A :=
  fun w =>
    match body w with
    | (Normal a, w') => (Normal a, w')
    | (Throw e, w') => handler e w'
    end.

Definition when (b : bool) (c : M unit) : M unit := if b then c else ret tt.

Notation "x <- c ;; k" := (bind c (fun x => k))
  (at level 61, c at next level, right associativity).
Notation "c ;;; k" := (bind c (fun _ => k))
  (at level 61, right associativity).

(** Reads and writes of the object's fields. *)
Definition this : M LruCache := fun w => (Normal (self w), w).

Definition update (f : LruCache -> LruCache) : M unit :=
  fun w => (Normal tt,
            mkWorld (f (self w)) (clock w) (tick w) (sinkCalls w) (console w)).

Definition set_cache (m : Map) (c : LruCache) : LruCache :=
  mkCache (capacity c) m (events c) (defaultTtl c)
          (hits c) (misses c) (evictions c) (trackStats c).

Definition incr_hits (c : LruCache) : LruCache :=
  mkCache (capacity c) (cache c) (events c) (defaultTtl c)
          (hits c + 1) (misses c) (evictions c) (trackStats c).

Definition incr_misses (c : LruCache) : LruCache :=
  mkCache (capacity c) (cache c) (events c) (defaultTtl c)
          (hits c) (misses c + 1) (evictions c) (trackStats c).

Definition incr_evictions (c : LruCache) : LruCache :=
  mkCache (capacity c) (cache c) (events c) (defaultTtl c)
          (hits c) (misses c) (evictions c + 1) (trackStats c).

(** [Date.now()] *)
Definition Date_now : M Z :=
  fun w => (Normal (clock w (tick w)),
            mkWorld (self w) (clock w) (S (tick w)) (sinkCalls w) (console w)).

(** [console.error('Error in onEvict callback:', error)] *)
Definition console_error (error : Exn) : M unit :=
  fun w => (Normal tt,
            mkWorld (self w) (clock w) (tick w) (sinkCalls w) (console w ++ [error])).

(** The call [this.onEvict(key, value)]: the callback receives the pair and
    returns or throws. *)
Definition call_onEvict (f : Callback) (key : Key) (v : Value) : M unit :=
  fun w =>
    let w' := mkWorld (self w) (clock w) (tick w)
                      (sinkCalls w ++ [(key, v)]) (console w) in
    match f (sinkCalls w) key v with
    | None => (Normal tt, w')
    | Some e => (Throw e, w')
    end.

(** ** [LruCacheEvents.emitEviction] *)
Definition emitEviction (key : Key) (v : Value) : M unit :=
  c <- this ;;
  match onEvict (events c) with
  | Some f => try_catch (call_onEvict f key v) (fun error => console_error error)
  | None => ret tt
  end.

(** ** [LruCache] *)

Definition constructor (capacity : JsNumber) (options : option LruCacheOptions)
  : Completion LruCache :=
  if negb (Number_isInteger capacity) || Number_le0 capacity then
    Throw (Error "Capacity must be a positive integer")
  else
    let ttl := match options with Some o => opt_ttl o | None => Undefined end in
    let bad_ttl :=
      match ttl with
      | Num x => negb (Number_isInteger x) || Number_le0 x
      | _ => false
      end in
    if bad_ttl then
      Throw (Error "TTL must be a positive integer if specified")
    else
      Normal
        (mkCache (Number_toZ capacity)
                 []
                 (mkEvents (match options with Some o => opt_onEvict o | None => None end))
                 (match ttl with Num x => Some (Number_toZ x) | _ => None end)
                 0 0 0
                 (match options with
                  | Some o => match opt_trackStats o with Some b => b | None => false end
                  | None => false
                  end)).

(** [#isExpired]: the clock is read only for an entry that carries an expiry. *)
Definition isExpired (entry : option CacheEntry) : M bool :=
  match entry with
  | None => ret false
  | Some e =>
      match expiresAt e with
      | None => ret false
      | Some t => now <- Date_now ;; ret (t <? now)
      end
  end.

(** [#deleteAndNotifyIfKeyExpired] *)
Definition deleteAndNotifyIfKeyExpired (key : Key) : M bool :=
  c <- this ;;
  let entry := Map_get key (cache c) in
  expired <- isExpired entry ;;
  if expired then
    match entry with
    | Some e =>
        update (fun c => set_cache (Map_delete key (cache c)) c) ;;;
        emitEviction key (value e) ;;;
        c <- this ;;
        when (trackStats c) (update incr_evictions) ;;;
        ret true
    | None => ret true
    end
  else ret false.

Definition setMostRecentlyUsed (key : Key) (v : Value) (expiresAt : option Z)
  : M unit :=
  update (fun c => set_cache (Map_delete key (cache c)) c) ;;;
  update (fun c => set_cache (Map_set key (mkEntry v expiresAt) (cache c)) c).

Definition get (key : Key) : M (option Value) :=
  expired <- deleteAndNotifyIfKeyExpired key ;;
  if expired then
    c <- this ;;
    when (trackStats c) (update incr_misses) ;;;
    ret None
  else
    c <- this ;;
    match Map_get key (cache c) with
    | None =>
        when (trackStats c) (update incr_misses) ;;;
        ret None
    | Some entry =>
        setMostRecentlyUsed key (value entry) (expiresAt entry) ;;;
        c <- this ;;
        when (trackStats c) (update incr_hits) ;;;
        ret (Some (value entry))
    end.

Definition peek (key : Key) : M (option Value) :=
  expired <- deleteAndNotifyIfKeyExpired key ;;
  if expired then ret None
  else
    c <- this ;;
    ret (match Map_get key (cache c) with
         | Some entry => Some (value entry)
         | None => None
         end).

Definition has (key : Key) : M bool :=
  expired <- deleteAndNotifyIfKeyExpired key ;;
  if expired then ret false
  else c <- this ;; ret (Map_has key (cache c)).

Definition size : M Z := c <- this ;; ret (Map_size (cache c)).

Definition evictOldest : M (option Key) :=
  c <- this ;;
  match cache c with
  | [] => ret None
  | (oldestKey, oldestValue) :: _ =>
      update (fun c => set_cache (Map_delete oldestKey (cache c)) c) ;;;
      emitEviction oldestKey (value oldestValue) ;;;
      c <- this ;;
      when (trackStats c) (update incr_evictions) ;;;
      ret (Some oldestKey)
  end.

Definition set (key : Key) (v : Value) (itemTtlMs : OptNumber) : M unit :=
  present <- has key ;;
  n <- size ;;
  c <- this ;;
  when (negb present && (capacity c <=? n)) (evictOldest ;;; ret tt) ;;;
  expiresAt <-
    match itemTtlMs with
    | Null => ret None
    | Num x =>
        if Number_gt0 x then
          if negb (Number_isInteger x) then
            throw (Error "Item TTL must be a positive integer if specified")
          else now <- Date_now ;; ret (Some (now + Number_toZ x))
        else
          match defaultTtl c with
          | Some d => if 0 <? d then now <- Date_now ;; ret (Some (now + d))
                      else ret None
          | None => ret None
          end
    | Undefined =>
        match defaultTtl c with
        | Some d => if 0 <? d then now <- Date_now ;; ret (Some (now + d))
                    else ret None
        | None => ret None
        end
    end ;;
  setMostRecentlyUsed key v expiresAt.

Definition delete (key : Key) : M bool :=
  c <- this ;;
  let found := Map_has key (cache c) in
  update (fun c => set_cache (Map_delete key (cache c)) c) ;;;
  ret found.

Definition clear : M unit := update (set_cache []).

Definition keys : M (list Key) := c <- this ;; ret (Map_keys (cache c)).

(** The loop of [purgeExpired] over the snapshot of keys. *)
Fixpoint purgeLoop (ks : list Key) (purgedCount : Z) : M Z :=
  match ks with
  | [] => ret purgedCount
  | key :: ks' =>
      expired <- deleteAndNotifyIfKeyExpired key ;;
      purgeLoop ks' (if expired then purgedCount + 1 else purgedCount)
  end.

Definition purgeExpired : M Z :=
  ks <- keys ;;
  purgeLoop ks 0.

(** ** Sequences of calls *)

Inductive Op : Type :=
| OpSet (key : Key) (v : Value) (itemTtlMs : OptNumber)
| OpGet (key : Key)
| OpPeek (key : Key)
| OpHas (key : Key)
| OpDelete (key : Key)
| OpClear
| OpPurgeExpired.

(** What a call hands back to its caller. *)
Inductive Ret : Type :=
| RThis
| RValue (v : option Value)
| RBool (b : bool)
| RCount (n : Z).

Definition exec (o : Op) : M Ret :=
  match o with
  | OpSet key v ttl => set key v ttl ;;; ret RThis
  | OpGet key => r <- get key ;; ret (RValue r)
  | OpPeek key => r <- peek key ;; ret (RValue r)
  | OpHas key => b <- has key ;; ret (RBool b)
  | OpDelete key => b <- delete key ;; ret (RBool b)
  | OpClear => clear ;;; ret RThis
  | OpPurgeExpired => n <- purgeExpired ;; ret (RCount n)
  end.

(** The caller goes on after a call whether it returned or threw. *)
Fixpoint run (ops : list Op) (w : World) : World :=
  match ops with
  | [] => w
  | o :: ops' => run ops' (snd (exec o w))
  end.

(** The world after each call of a sequence. *)
Fixpoint trace (ops : list Op) (w : World) : list World :=
  match ops with
  | [] => []
  | o :: ops' => let w' := snd (exec o w) in w' :: trace ops' w'
  end.

(** A freshly constructed cache in a world where nothing has happened yet. *)
Definition fresh (c : LruCache) (clk : nat -> Z) : World :=
  mkWorld c clk 0 [] [].

(** ** Vocabulary of the specification *)

(** An entry is expired at [now] iff it has an expiry [t] and [now > t]. *)
Definition expiredAt (now : Z) (e : CacheEntry) : bool :=
  match expiresAt e with
  | Some t => t <? now
  | None => false
  end.

(** The purge sweep seen from outside: the verdict on each entry of the
    store, in store order, the [n]-th clock read being spent on the next
    entry that carries an expiry. *)
Fixpoint expiredWhenChecked (clk : nat -> Z) (n : nat) (m : Map) : list bool :=
  match m with
  | [] => []
  | (_, e) :: m' =>
      match expiresAt e with
      | None => false :: expiredWhenChecked clk n m'
      | Some t => (t <? clk n) :: expiredWhenChecked clk (S n) m'
      end
  end.

(** The entries of [m] whose verdict is [b], in store order. *)
Fixpoint select (b : bool) (m : Map) (verdicts : list bool) : Map :=
  match m, verdicts with
  | p :: m', v :: vs =>
      if Bool.eqb v b then p :: select b m' vs else select b m' vs
  | _, _ => []
  end.

(** What the callback is told about an entry. *)
Definition notification (p : Key * CacheEntry) : Key * Value :=
  (fst p, value (snd p)).

(** The world with another callback installed. *)
Definition with_onEvict (f : option Callback) (w : World) : World :=
  mkWorld (mkCache (capacity (self w)) (cache (self w)) (mkEvents f)
                   (defaultTtl (self w)) (hits (self w)) (misses (self w))
                   (evictions (self w)) (trackStats (self w)))
          (clock w) (tick w) (sinkCalls w) (console w).

(** What no method ever writes: the configuration and the clock. *)
Definition sameConfig (w w' : World) : Prop :=
  capacity (self w') = capacity (self w) /\
  events (self w') = events (self w) /\
  defaultTtl (self w') = defaultTtl (self w) /\
  trackStats (self w') = trackStats (self w) /\
  clock w' = clock w.

(** One more on a counter when statistics are tracked, nothing otherwise. *)
Definition counted (w : World) (n : Z) : Z :=
  if trackStats (self w) then n else 0.

(** The calls the callback receives for the removed entries [ps], if a
    callback is installed. *)
Definition delivered (w : World) (ps : list (Key * Value)) : list (Key * Value) :=
  match onEvict (events (self w)) with
  | Some _ => ps
  | None => []
  end.

(** The store is a [Map]: no key is bound twice. *)
Definition Map_ok (m : Map) : Prop := NoDup (Map_keys m).

(** The invariant of the class: a well-formed store that fits a positive
    capacity. *)
Definition bounded (w : World) : Prop :=
  Map_ok (cache (self w)) /\
  0 < capacity (self w) /\
  Map_size (cache (self w)) <= capacity (self w).

(** Two cache objects that differ at most in which callback is installed. *)
Definition agreeObj (c1 c2 : LruCache) : Prop :=
  capacity c1 = capacity c2 /\
  cache c1 = cache c2 /\
  defaultTtl c1 = defaultTtl c2 /\
  hits c1 = hits c2 /\
  misses c1 = misses c2 /\
  evictions c1 = evictions c2 /\
  trackStats c1 = trackStats c2 /\
  (onEvict (events c1) = None <-> onEvict (events c2) = None).

(** Two worlds that differ at most in the installed callback and in what
    was logged to the console. *)
Definition agree (w1 w2 : World) : Prop :=
  agreeObj (self w1) (self w2) /\
  clock w1 = clock w2 /\
  tick w1 = tick w2 /\
  sinkCalls w1 = sinkCalls w2.

(** Two computations that cannot be told apart from such worlds. *)
Definition sim {A} (c1 c2 : M A) : Prop :=
  forall w1 w2, agree w1 w2 ->
    fst (c1 w1) = fst (c2 w2) /\ agree (snd (c1 w1)) (snd (c2 w2)).

(** A per-item TTL that [set] rejects. *)
Definition rejectedTtl (itemTtlMs : OptNumber) : bool :=
  match itemTtlMs with
  | Num x => Number_gt0 x && negb (Number_isInteger x)
  | _ => false
  end.

(** A per-item TTL the specification calls a contract violation: provided,
    not the no-expiry sentinel, and not a positive integer. *)
Definition notPositiveInteger (itemTtlMs : OptNumber) : bool :=
  match itemTtlMs with
  | Num x => negb (Number_isInteger x && Number_gt0 x)
  | _ => false
  end.

(** ** The remaining public methods *)

Definition Map_values (m : Map) : list CacheEntry := map snd m.

(** [isEmpty] *)
Definition isEmpty : M bool := c <- this ;; ret (Map_size (cache c) =? 0).

(** [getCapacity] *)
Definition getCapacity : M Z := c <- this ;; ret (capacity c).

(** [values]: [Array.from(this.cache.values()).map(entry => entry.value)] *)
Definition values : M (list Value) :=
  c <- this ;; ret (map (fun entry => value entry) (Map_values (cache c))).

(** [entries] *)
Definition entries : M (list (Key * Value)) :=
  c <- this ;;
  ret (map (fun '(key, entry) => (key, value entry)) (cache c)).

(** [entriesNewestFirst]: the entries are reversed, then mapped. *)
Definition entriesNewestFirst : M (list (Key * Value)) :=
  c <- this ;;
  ret (map (fun '(key, entry) => (key, value entry)) (rev (cache c))).

(** The object [stats] returns. *)
Record Stats : Type := mkStats {
  stats_hits : Z;
  stats_misses : Z;
  stats_evictions : Z
}.

Definition stats : M Stats :=
  c <- this ;; ret (mkStats (hits c) (misses c) (evictions c)).

Definition zero_hits (c : LruCache) : LruCache :=
  mkCache (capacity c) (cache c) (events c) (defaultTtl c)
          0 (misses c) (evictions c) (trackStats c).

Definition zero_misses (c : LruCache) : LruCache :=
  mkCache (capacity c) (cache c) (events c) (defaultTtl c)
          (hits c) 0 (evictions c) (trackStats c).

Definition zero_evictions (c : LruCache) : LruCache :=
  mkCache (capacity c) (cache c) (events c) (defaultTtl c)
          (hits c) (misses c) 0 (trackStats c).

(** [resetStats] *)
Definition resetStats : M unit :=
  c <- this ;;
  when (trackStats c)
       (update zero_hits ;;; update zero_misses ;;; update zero_evictions).

(** ** More vocabulary *)

(** A number that is an integer and greater than zero. *)
Definition positiveInteger (x : JsNumber) : bool :=
  Number_isInteger x && Number_gt0 x.

(** A default TTL the constructor takes: absent, [null], or a positive
    integer. *)
Definition acceptableTtl (ttl : OptNumber) : bool :=
  match ttl with
  | Num x => positiveInteger x
  | _ => true
  end.

(** The [ttl] option as the constructor reads it: [options?.ttl]. *)
Definition options_ttl (options : option LruCacheOptions) : OptNumber :=
  match options with Some o => opt_ttl o | None => Undefined end.

(** The TTL that governs an entry written by [set]: none for [null], the
    per-item value when it is a positive number, the default otherwise. *)
Definition effectiveTtl (c : LruCache) (itemTtlMs : OptNumber) : option Z :=
  match itemTtlMs with
  | Null => None
  | Num x =>
      if Number_gt0 x then Some (Number_toZ x)
      else match defaultTtl c with
           | Some d => if 0 <? d then Some d else None
           | None => None
           end
  | Undefined =>
      match defaultTtl c with
      | Some d => if 0 <? d then Some d else None
      | None => None
      end
  end.


(** The number of clock reads the existence check of [key] costs: one when
    the key is bound to an entry that carries an expiry. *)
Definition probeCost (key : Key) (w : World) : nat :=
  match Map_get key (cache (self w)) with
  | Some e => match expiresAt e with Some _ => 1 | None => 0 end
  | None => 0
  end.

(** The number of [get] calls in a sequence. *)
Fixpoint countGets (ops : list Op) : nat :=
  match ops with
  | [] => 0
  | OpGet _ :: ops' => S (countGets ops')
  | _ :: ops' => countGets ops'
  end.

(** From [w] to [w'] some entries [ps] were evicted: the callback was told
    about each, and each was counted. *)
Definition accounted (w w' : World) : Prop :=
  exists ps : list (Key * Value),
    sinkCalls w' = sinkCalls w ++ delivered w ps /\
    evictions (self w') =
      evictions (self w) + counted w (Z.of_nat (List.length ps)).

(** A step that keeps the configuration and the hit and miss counters and
    accounts for its evictions. *)
Definition steady (w w' : World) : Prop :=
  sameConfig w w' /\
  hits (self w') = hits (self w) /\
  misses (self w') = misses (self w) /\
  accounted w w'.

(** The [trackStats] option as the constructor reads it:
    [options?.trackStats ?? false]. *)
Definition options_trackStats (options : option LruCacheOptions) : bool :=
  match options with
  | Some o => match opt_trackStats o with Some b => b | None => false end
  | None => false
  end.

(** The errors a callback throws on the calls [ps], made one after the
    other after the calls [history]. *)
Fixpoint thrownBy (f : Callback) (history ps : list (Key * Value)) : list Exn :=
  match ps with
  | [] => []
  | (k, v) :: ps' =>
      match f history k v with
      | Some err => err :: thrownBy f (history ++ [(k, v)]) ps'
      | None => thrownBy f (history ++ [(k, v)]) ps'
      end
  end.

(** From [w] to [w'] the callback is the same, it received some more calls,
    and the console received exactly the errors it threw on them. *)
Definition logged (w w' : World) : Prop :=
  events (self w') = events (self w) /\
  exists ps,
    sinkCalls w' = sinkCalls w ++ ps /\
    console w' =
      console w ++
      match onEvict (events (self w)) with
      | Some f => thrownBy f (sinkCalls w) ps
      | None => []
      end.

(** A computation that only ever logs what the callback throws. *)
Definition keeps {A} (c : M A) : Prop := forall w, logged w (snd (c w)).

End Model.

Arguments CacheEntry : clear implicits.
Arguments Map : clear implicits.
Arguments Callback : clear implicits.
Arguments LruCacheOptions : clear implicits.
Arguments LruCacheEvents : clear implicits.
Arguments LruCache : clear implicits.
Arguments World : clear implicits.
Arguments M : clear implicits.
Arguments Op : clear implicits.
Arguments Ret : clear implicits.
Arguments Stats : clear implicits.

(** ** A concrete cache, for examples *)

Module Example.

Definition K : Type := string.
Definition V : Type := Z.

(** A callback that always throws. *)
Definition faulty : Callback K V := fun _ _ _ => Some (Error "observer failed").

(** A callback that always returns. *)
Definition quiet : Callback K V := fun _ _ _ => None.

(** The clock reads 100, 101, 102, ... *)
Definition clk : nat -> Z := fun n => 100 + Z.of_nat n.

Definition c0 (cap : Z) (sink : Callback K V) (m : Map K V) : LruCache K V :=
  mkCache cap m (mkEvents (Some sink)) None 0 0 0 true.

Definition w0 (cap : Z) (sink : Callback K V) (m : Map K V) : World K V :=
  mkWorld (c0 cap sink m) clk 0 [] [].

Definition ea : CacheEntry V := mkEntry 1 (Some 50).   (* expired at 100 *)
Definition eb : CacheEntry V := mkEntry 2 None.
Definition ec : CacheEntry V := mkEntry 3 (Some 500).  (* alive at 100 *)

Definition abc : Map K V := [("a"%string, ea); ("b"%string, eb); ("c"%string, ec)].

(** The options and the result of [new LruCache(2, options)]. *)
Definition options2 : LruCacheOptions K V :=
  mkOptions (Some quiet) (Some true) Undefined.

Definition fresh2 : LruCache K V :=
  mkCache 2 [] (mkEvents (Some quiet)) None 0 0 0 true.

(** A full store of two live entries, and a cache built without options. *)
Definition bc : Map K V := [("b"%string, eb); ("c"%string, ec)].

Definition plain2 : LruCache K V :=
  mkCache 2 [] (mkEvents None) None 0 0 0 false.

(** A short session: two writes, a hit, a miss, a write that evicts. *)
Definition session : list (Op K V) :=
  [OpSet "a"%string 1 Undefined; OpSet "b"%string 2 Undefined;
   OpGet "a"%string; OpGet "z"%string; OpSet "c"%string 3 Undefined].

End Example.

(** * Properties *)

Section Theory.
Context {Key Value : Type} `{PropertyKey Key}.
Implicit Types (key k : Key) (m : Map Key Value) (e : CacheEntry Value) (w : World Key Value).

Notation "x <- c ;; k" := (bind c (fun x => k))
  (at level 61, c at next level, right associativity).
Notation "c ;;; k" := (bind c (fun _ => k))
  (at level 61, right associativity).

Lemma Map_get_None key m : Map_get key m = None <-> ~ In key (Map_keys m).
Proof.
  induction m as [|[k e] m IH]; cbn; [tauto|].
  destruct (Key_eq_dec key k) as [->|Hne].
  - split; [discriminate|]. intros Hn. exfalso. apply Hn. now left.
  - rewrite IH. split; [intros Hn [Heq|Hin]; [congruence|tauto] | tauto].
Qed.

Lemma Map_delete_absent key m : ~ In key (Map_keys m) -> Map_delete key m = m.
Proof.
  induction m as [|[k e] m IH]; cbn; [reflexivity|]. intros Hn.
  destruct (Key_eq_dec key k) as [->|Hne]; [tauto|]. f_equal. tauto.
Qed.

Lemma Map_keys_delete key k m :
  In k (Map_keys (Map_delete key m)) <-> In k (Map_keys m) /\ k <> key.
Proof.
  induction m as [|[k' e] m IH]; cbn; [tauto|].
  destruct (Key_eq_dec key k') as [->|Hne]; cbn.
  - split; [tauto|]. intros [[Heq|Hin] Hk]; [congruence|tauto].
  - split; [|tauto]. intros [Heq|Hin]; [|tauto]. split; [tauto|congruence].
Qed.

Lemma Map_delete_NoDup key m :
  NoDup (Map_keys m) -> NoDup (Map_keys (Map_delete key m)).
Proof.
  induction m as [|[k e] m IH]; cbn; [auto|]. intros Hnd.
  inversion Hnd as [|? ? Hk Hm]; subst.
  destruct (Key_eq_dec key k) as [->|Hne]; cbn; [auto|].
  constructor; [|auto]. intros Hin. apply Map_keys_delete in Hin. tauto.
Qed.

Lemma Map_set_absent key e m :
  ~ In key (Map_keys m) -> Map_set key e m = m ++ [(key, e)].
Proof.
  induction m as [|[k e'] m IH]; cbn; [reflexivity|]. intros Hn.
  destruct (Key_eq_dec key k) as [->|Hne]; [tauto|]. f_equal. tauto.
Qed.

Lemma Map_set_delete key e m :
  Map_set key e (Map_delete key m) = Map_delete key m ++ [(key, e)].
Proof. apply Map_set_absent. intros Hin. apply Map_keys_delete in Hin. tauto. Qed.

Lemma Map_delete_length key m :
  (List.length (Map_delete key m) <= List.length m)%nat.
Proof.
  induction m as [|[k e] m IH]; cbn; [lia|].
  destruct (Key_eq_dec key k); cbn; lia.
Qed.

Lemma Map_delete_length_present key m :
  NoDup (Map_keys m) -> In key (Map_keys m) ->
  S (List.length (Map_delete key m)) = List.length m.
Proof.
  induction m as [|[k e] m IH]; cbn; [tauto|]. intros Hnd Hin.
  inversion Hnd as [|? ? Hk Hm]; subst.
  destruct (Key_eq_dec key k) as [->|Hne]; cbn.
  - now rewrite Map_delete_absent.
  - f_equal. apply IH; [auto|]. destruct Hin; [congruence|auto].
Qed.

Lemma Map_delete_head key e m :
  NoDup (Map_keys ((key, e) :: m)) -> Map_delete key ((key, e) :: m) = m.
Proof.
  cbn. intros Hnd. inversion Hnd; subst.
  destruct (Key_eq_dec key key); [|congruence]. now apply Map_delete_absent.
Qed.

Lemma Map_keys_app m1 m2 : Map_keys (m1 ++ m2) = Map_keys m1 ++ Map_keys m2.
Proof. apply map_app. Qed.


Lemma Map_get_delete_same key m : Map_get key (Map_delete key m) = None.
Proof. apply Map_get_None. intros Hin. apply Map_keys_delete in Hin. tauto. Qed.

Lemma Map_get_delete_other key k m :
  k <> key -> Map_get k (Map_delete key m) = Map_get k m.
Proof.
  intros Hne. induction m as [|[k' e] m IH]; cbn; [reflexivity|].
  destruct (Key_eq_dec key k') as [->|Hk]; cbn.
  - destruct (Key_eq_dec k k'); [congruence|auto].
  - destruct (Key_eq_dec k k'); auto.
Qed.

Ltac unfold_m :=
  unfold set, get, peek, has, delete, clear, size, keys, evictOldest,
    setMostRecentlyUsed, deleteAndNotifyIfKeyExpired, isExpired, emitEviction,
    call_onEvict, console_error, Date_now, try_catch, when, update, this,
    throw, bind, ret in *.

Ltac destruct_world w :=
  let cap := fresh "cap" in let m := fresh "m" in let sink := fresh "sink" in
  destruct w as [[cap m [sink] dt h mi evs tr] clk n sc con].


(** ** The expiry check shared by every read path *)

Lemma deleteAndNotifyIfKeyExpired_spec key w :
  exists b w',
    deleteAndNotifyIfKeyExpired key w = (Normal b, w') /\
    sameConfig w w' /\
    hits (self w') = hits (self w) /\
    misses (self w') = misses (self w) /\
    match Map_get key (cache (self w)) with
    | Some e =>
        b = expiredAt (clock w (tick w)) e /\
        tick w' = match expiresAt e with Some _ => S (tick w) | None => tick w end /\
        if b then
          cache (self w') = Map_delete key (cache (self w)) /\
          evictions (self w') = evictions (self w) + counted w 1 /\
          sinkCalls w' = sinkCalls w ++ delivered w [(key, value e)]
        else
          cache (self w') = cache (self w) /\
          evictions (self w') = evictions (self w) /\
          sinkCalls w' = sinkCalls w
    | None => b = false /\ w' = w
    end.
Proof.
  destruct_world w. unfold_m. unfold expiredAt, sameConfig, counted, delivered. cbn.
  destruct (Map_get key m) as [[v [t|]]|] eqn:Hg; cbn.
  - destruct (t <? clk n) eqn:Ht; cbn.
    + destruct sink as [f|]; cbn.
      * destruct (f sc key v); cbn; destruct tr; cbn;
          do 2 eexists; (split; [reflexivity|]); cbn; rewrite ?app_nil_r;
          auto 10 with zarith.
      * destruct tr; cbn; do 2 eexists; (split; [reflexivity|]); cbn;
          rewrite ?app_nil_r; auto 10 with zarith.
    + do 2 eexists; (split; [reflexivity|]); cbn; auto 10.
  - do 2 eexists; (split; [reflexivity|]); cbn; auto 10.
  - do 2 eexists; (split; [reflexivity|]); cbn; auto 10.
Qed.

(** ** [get] *)

(** C4: on a key whose entry is present and not expired, [get] returns the
    stored value, moves the entry, unchanged, to the most-recently-used end
    and counts a hit when statistics are tracked; on a key that is absent, or
    whose entry is expired when the call reads the clock, [get] returns
    nothing and counts a miss when statistics are tracked. *)
Theorem C4_get_hit_or_miss key w r w' :
  get key w = (r, w') ->
  match Map_get key (cache (self w)) with
  | Some e =>
      if expiredAt (clock w (tick w)) e then
        r = Normal None /\
        misses (self w') = misses (self w) + counted w 1 /\
        hits (self w') = hits (self w)
      else
        r = Normal (Some (value e)) /\
        cache (self w') = Map_delete key (cache (self w)) ++ [(key, e)] /\
        hits (self w') = hits (self w) + counted w 1 /\
        misses (self w') = misses (self w)
  | None =>
      r = Normal None /\
      cache (self w') = cache (self w) /\
      misses (self w') = misses (self w) + counted w 1 /\
      hits (self w') = hits (self w)
  end.
Proof.
  destruct_world w. unfold_m. unfold expiredAt, counted. cbn.
  destruct (Map_get key m) as [[v [t|]]|] eqn:Hg; cbn.
  - destruct (t <? clk n) eqn:Ht; cbn.
    + destruct sink as [f|]; cbn.
      * destruct (f sc key v); cbn; destruct tr; cbn; intros [= <- <-]; cbn;
          auto with zarith.
      * destruct tr; cbn; intros [= <- <-]; cbn; auto with zarith.
    + rewrite Hg. cbn. rewrite Map_set_delete.
      destruct tr; cbn; intros [= <- <-]; cbn; auto with zarith.
  - rewrite Hg. cbn. rewrite Map_set_delete.
    destruct tr; cbn; intros [= <- <-]; cbn; auto with zarith.
  - rewrite Hg. cbn. destruct tr; cbn; intros [= <- <-]; cbn; auto with zarith.
Qed.

(** ** [peek] *)

(** C5: [peek] leaves the hit and miss counters alone and never reorders the
    entries that stay; when the entry it touches is expired, it removes that
    entry, notifies the callback with its key and value, counts an eviction
    when statistics are tracked, and returns nothing. *)
Theorem C5_peek_frame_and_cleanup key w r w' :
  peek key w = (r, w') ->
  hits (self w') = hits (self w) /\
  misses (self w') = misses (self w) /\
  match Map_get key (cache (self w)) with
  | Some e =>
      if expiredAt (clock w (tick w)) e then
        r = Normal None /\
        cache (self w') = Map_delete key (cache (self w)) /\
        sinkCalls w' = sinkCalls w ++ delivered w [(key, value e)] /\
        evictions (self w') = evictions (self w) + counted w 1
      else
        r = Normal (Some (value e)) /\
        cache (self w') = cache (self w) /\
        sinkCalls w' = sinkCalls w /\
        evictions (self w') = evictions (self w)
  | None =>
      r = Normal None /\
      cache (self w') = cache (self w) /\
      sinkCalls w' = sinkCalls w /\
      evictions (self w') = evictions (self w)
  end.
Proof.
  intros Hp. unfold peek, bind in Hp.
  destruct (deleteAndNotifyIfKeyExpired_spec key w)
    as (b & w1 & Hdn & _ & Hh & Hm & Hcase).
  rewrite Hdn in Hp.
  destruct (Map_get key (cache (self w))) as [e|] eqn:Hg.
  - destruct Hcase as (-> & _ & Hcase).
    destruct (expiredAt (clock w (tick w)) e).
    + unfold ret in Hp. injection Hp as <- <-. tauto.
    + unfold this, ret in Hp. injection Hp as <- <-.
      destruct Hcase as (Hc & He & Hs). rewrite Hc, Hg. tauto.
  - destruct Hcase as (-> & ->). unfold this, ret in Hp. rewrite Hg in Hp.
    injection Hp as <- <-. tauto.
Qed.

(** ** [delete] *)

(** C10: [delete] never looks at the clock. A key bound in the store is
    removed and [true] returned, expired or not; an unbound key gives [false]
    and an unchanged world. Either way the callback hears nothing and the
    counters stay as they were. *)
Theorem C10_delete_ignores_expiry key w r w' :
  delete key w = (r, w') ->
  tick w' = tick w /\
  sinkCalls w' = sinkCalls w /\
  console w' = console w /\
  hits (self w') = hits (self w) /\
  misses (self w') = misses (self w) /\
  evictions (self w') = evictions (self w) /\
  match Map_get key (cache (self w)) with
  | Some _ =>
      r = Normal true /\
      cache (self w') = Map_delete key (cache (self w)) /\
      Map_get key (cache (self w')) = None /\
      (forall k, k <> key -> Map_get k (cache (self w')) = Map_get k (cache (self w)))
  | None => r = Normal false /\ w' = w
  end.
Proof.
  destruct_world w. unfold_m. unfold Map_has. cbn.
  destruct (Map_get key m) eqn:Hg; intros [= <- <-]; cbn.
  - repeat split; auto using Map_get_delete_same, Map_get_delete_other.
  - rewrite Map_delete_absent by (now apply Map_get_None). auto 10.
Qed.

(** ** [has] and [evictOldest] *)

Lemma has_spec key w :
  exists b w1,
    has key w = (Normal b, w1) /\
    sameConfig w w1 /\
    hits (self w1) = hits (self w) /\
    misses (self w1) = misses (self w) /\
    b = Map_has key (cache (self w1)) /\
    match Map_get key (cache (self w)) with
    | Some e =>
        b = negb (expiredAt (clock w (tick w)) e) /\
        tick w1 = match expiresAt e with Some _ => S (tick w) | None => tick w end /\
        if b then
          cache (self w1) = cache (self w) /\
          evictions (self w1) = evictions (self w) /\
          sinkCalls w1 = sinkCalls w
        else
          cache (self w1) = Map_delete key (cache (self w)) /\
          evictions (self w1) = evictions (self w) + counted w 1 /\
          sinkCalls w1 = sinkCalls w ++ delivered w [(key, value e)]
    | None => b = false /\ w1 = w
    end.
Proof.
  destruct (deleteAndNotifyIfKeyExpired_spec key w)
    as (b & w1 & Hdn & Hcfg & Hh & Hm & Hcase).
  unfold has, bind. rewrite Hdn.
  destruct (Map_get key (cache (self w))) as [e|] eqn:Hg.
  - destruct Hcase as (-> & Ht & Hcase).
    destruct (expiredAt (clock w (tick w)) e); unfold this, ret; cbn.
    + do 2 eexists. split; [reflexivity|]. repeat (split; [assumption|]).
      destruct Hcase as (Hc & He & Hs). rewrite Hc. unfold Map_has.
      rewrite Map_get_delete_same. auto 10.
    + do 2 eexists. split; [reflexivity|]. repeat (split; [assumption|]).
      destruct Hcase as (Hc & He & Hs). rewrite Hc. unfold Map_has.
      rewrite Hg. auto 10.
  - destruct Hcase as (-> & ->). unfold this, ret; cbn.
    do 2 eexists. split; [reflexivity|]. repeat (split; [assumption|]).
    unfold Map_has. rewrite Hg. auto 10.
Qed.

Lemma evictOldest_spec w :
  exists r w',
    evictOldest w = (Normal r, w') /\
    sameConfig w w' /\
    hits (self w') = hits (self w) /\
    misses (self w') = misses (self w) /\
    tick w' = tick w /\
    match cache (self w) with
    | [] => r = None /\ w' = w
    | (k, e) :: rest =>
        r = Some k /\
        cache (self w') = Map_delete k ((k, e) :: rest) /\
        evictions (self w') = evictions (self w) + counted w 1 /\
        sinkCalls w' = sinkCalls w ++ delivered w [(k, value e)]
    end.
Proof.
  destruct_world w. unfold_m. unfold sameConfig, counted, delivered. cbn.
  destruct m as [|[k e] rest]; cbn.
  - do 2 eexists. split; [reflexivity|]. cbn. auto 10.
  - destruct sink as [f|]; cbn.
    + destruct (f sc k (value e)); cbn; destruct tr; cbn;
        do 2 eexists; (split; [reflexivity|]); cbn; rewrite ?app_nil_r;
        auto 10 with zarith.
    + destruct tr; cbn; do 2 eexists; (split; [reflexivity|]); cbn;
        rewrite ?app_nil_r; auto 10 with zarith.
Qed.

(** ** [set], phase by phase *)

(** The tail of [set]: the expiry is worked out, which may throw, and the
    entry is written at the most-recently-used end. *)
Lemma set_phases key v ttl w r w' :
  set key v ttl w = (r, w') ->
  exists b w1 w2,
    has key w = (Normal b, w1) /\
    (if negb b && (capacity (self w) <=? Map_size (cache (self w1)))
     then exists k : option Key, evictOldest w1 = (Normal k, w2)
     else w2 = w1) /\
    if rejectedTtl ttl then
      r = Throw (Error "Item TTL must be a positive integer if specified") /\
      w' = w2
    else
      exists exp,
        r = Normal tt /\
        cache (self w') = Map_delete key (cache (self w2)) ++ [(key, mkEntry v exp)] /\
        sameConfig w2 w' /\
        hits (self w') = hits (self w2) /\
        misses (self w') = misses (self w2) /\
        evictions (self w') = evictions (self w2) /\
        sinkCalls w' = sinkCalls w2 /\
        console w' = console w2.
Proof.
  intros Hs.
  destruct (has_spec key w) as (b & w1 & Hhas & Hcfg & _).
  exists b, w1.
  unfold set in Hs. unfold bind at 1 in Hs. rewrite Hhas in Hs.
  unfold size in Hs. unfold bind at 1 2 3 in Hs. unfold this at 1 2, ret at 1 in Hs.
  cbn in Hs.
  destruct Hcfg as (Hcap & _). rewrite Hcap in Hs.
  assert (exists w2,
    (if negb b && (capacity (self w) <=? Map_size (cache (self w1)))
     then exists k : option Key, evictOldest w1 = (Normal k, w2) else w2 = w1) /\
    when (negb b && (capacity (self w) <=? Map_size (cache (self w1))))
         (evictOldest;;; ret tt) w1 = (Normal tt, w2)) as (w2 & Hw2 & Hev).
  { destruct (negb b && (capacity (self w) <=? Map_size (cache (self w1)))); cbn.
    - destruct (evictOldest_spec w1) as (k & w2 & He & _).
      exists w2. split; [eauto|]. unfold bind, ret. now rewrite He.
    - exists w1. split; reflexivity. }
  exists w2. split; [assumption|]. split; [assumption|].
  unfold bind at 1 in Hs. rewrite Hev in Hs. clear Hev Hw2 Hhas.
  destruct_world w2. revert Hs. unfold_m. unfold sameConfig, rejectedTtl. cbn.
  destruct ttl as [| |x]; cbn.
  - destruct (defaultTtl (self w1)) as [d|]; [destruct (0 <? d)|]; cbn;
      intros [= <- <-]; eexists; cbn; rewrite Map_set_delete; auto 10.
  - intros [= <- <-]; eexists; cbn; rewrite Map_set_delete; auto 10.
  - destruct (Number_gt0 x); cbn.
    + destruct (Number_isInteger x); cbn.
      * intros [= <- <-]; eexists; cbn; rewrite Map_set_delete; auto 10.
      * intros [= <- <-]; auto.
    + destruct (defaultTtl (self w1)) as [d|]; [destruct (0 <? d)|]; cbn;
        intros [= <- <-]; eexists; cbn; rewrite Map_set_delete; auto 10.
Qed.

Lemma Map_delete_length_lt key e m :
  Map_get key m = Some e ->
  (List.length (Map_delete key m) < List.length m)%nat.
Proof.
  induction m as [|[k e'] m IH]; cbn; [discriminate|].
  destruct (Key_eq_dec key k) as [->|Hne]; cbn; intros Hg.
  - pose proof (Map_delete_length k m). lia.
  - apply IH in Hg. lia.
Qed.

(** C9, for the calls that return: when the store holds an expired entry
    for the key being set, a [set] that returns has removed that entry,
    notified the callback with the key and the old value and counted an
    eviction when statistics are tracked, and has then put the new entry at
    the most-recently-used end. *)
Theorem C9_set_cleans_its_own_expired_key key v ttl w e w' :
  Map_size (cache (self w)) <= capacity (self w) ->
  Map_get key (cache (self w)) = Some e ->
  expiredAt (clock w (tick w)) e = true ->
  set key v ttl w = (Normal tt, w') ->
  sinkCalls w' = sinkCalls w ++ delivered w [(key, value e)] /\
  evictions (self w') = evictions (self w) + counted w 1 /\
  exists exp,
    cache (self w') = Map_delete key (cache (self w)) ++ [(key, mkEntry v exp)].
Proof.
  intros Hsz Hg Hexp Hs.
  destruct (set_phases _ _ _ _ _ _ Hs) as (b & w1 & w2 & Hhas & Hev & Htail).
  destruct (has_spec key w) as (b' & w1' & Hhas' & _ & _ & _ & _ & Hcase).
  rewrite Hhas in Hhas'. injection Hhas' as <- <-.
  rewrite Hg, Hexp in Hcase. cbn in Hcase.
  destruct Hcase as (-> & _ & Hc & He & Hn). cbn in Hev.
  assert ((capacity (self w) <=? Map_size (cache (self w1))) = false) as Hno.
  { apply Z.leb_gt. rewrite Hc. unfold Map_size in *.
    pose proof (Map_delete_length_lt _ _ _ Hg). lia. }
  rewrite Hno in Hev. subst w2.
  destruct (rejectedTtl ttl).
  - destruct Htail as (Habs & _). discriminate Habs.
  - destruct Htail as (exp & _ & Hc' & _ & _ & _ & He' & Hn' & _).
    rewrite Hn', He', Hc', Hc.
    rewrite (Map_delete_absent key (Map_delete key _))
      by (intros Hin; apply Map_keys_delete in Hin; tauto).
    eauto 10.
Qed.

(** When [set] throws: exactly on a per-item TTL that is a positive number
    and not an integer. A number that is not greater than zero takes the
    same path as an omitted TTL. *)
Lemma set_throws_exactly_on_rejectedTtl key v ttl w :
  fst (set key v ttl w) =
    (if rejectedTtl ttl
     then Throw (Error "Item TTL must be a positive integer if specified")
     else Normal tt) /\
  (forall x, Number_gt0 x = false -> set key v (Num x) w = set key v Undefined w).
Proof.
  split.
  - destruct (set key v ttl w) as [r w'] eqn:Hs.
    destruct (set_phases _ _ _ _ _ _ Hs) as (b & w1 & w2 & _ & _ & Htail).
    cbn. destruct (rejectedTtl ttl).
    + tauto.
    + destruct Htail as (exp & -> & _). reflexivity.
  - intros x Hx. unfold set. now rewrite Hx.
Qed.

(** ** [purgeExpired] *)

Lemma Map_get_app_absent key m1 m2 :
  ~ In key (Map_keys m1) -> Map_get key (m1 ++ m2) = Map_get key m2.
Proof.
  induction m1 as [|[k e] m1 IH]; cbn; [reflexivity|]. intros Hn.
  destruct (Key_eq_dec key k) as [->|Hne]; [tauto|]. apply IH. tauto.
Qed.

Lemma Map_delete_middle key e m1 m2 :
  Map_ok (m1 ++ (key, e) :: m2) ->
  Map_get key (m1 ++ (key, e) :: m2) = Some e /\
  Map_delete key (m1 ++ (key, e) :: m2) = m1 ++ m2.
Proof.
  unfold Map_ok. rewrite Map_keys_app. cbn. intros Hnd.
  apply NoDup_remove in Hnd as [Hnd Hnot].
  assert (~ In key (Map_keys m1)) as H1 by (intros Hin; apply Hnot, in_or_app; tauto).
  assert (~ In key (Map_keys m2)) as H2 by (intros Hin; apply Hnot, in_or_app; tauto).
  split.
  - rewrite Map_get_app_absent by assumption. cbn.
    destruct (Key_eq_dec key key); [reflexivity|congruence].
  - clear Hnd Hnot. induction m1 as [|[k e1] m1 IH]; cbn in *.
    + destruct (Key_eq_dec key key); [|congruence]. now apply Map_delete_absent.
    + destruct (Key_eq_dec key k) as [->|Hne]; [tauto|]. f_equal. apply IH. tauto.
Qed.

Lemma sameConfig_refl w : sameConfig w w.
Proof. unfold sameConfig. auto. Qed.

Lemma sameConfig_trans w1 w2 w3 :
  sameConfig w1 w2 -> sameConfig w2 w3 -> sameConfig w1 w3.
Proof. unfold sameConfig. intuition congruence. Qed.

Lemma sameConfig_delivered w w' ps :
  sameConfig w w' -> delivered w' ps = delivered w ps.
Proof. unfold sameConfig, delivered. intros (_ & -> & _). reflexivity. Qed.

Lemma sameConfig_counted w w' n :
  sameConfig w w' -> counted w' n = counted w n.
Proof. unfold sameConfig, counted. intros (_ & _ & _ & -> & _). reflexivity. Qed.

Lemma delivered_app w ps qs :
  delivered w (ps ++ qs) = delivered w ps ++ delivered w qs.
Proof. unfold delivered. destruct (onEvict _); reflexivity. Qed.

Lemma counted_add w a b : counted w (a + b) = counted w a + counted w b.
Proof. unfold counted. destruct (trackStats _); lia. Qed.

Lemma purgeLoop_spec m :
  forall pre w acc,
    Map_ok (pre ++ m) ->
    cache (self w) = pre ++ m ->
    exists w',
      purgeLoop (Map_keys m) acc w =
        (Normal (acc + Z.of_nat (List.length
           (select true m (expiredWhenChecked (clock w) (tick w) m)))), w') /\
      cache (self w') =
        pre ++ select false m (expiredWhenChecked (clock w) (tick w) m) /\
      sinkCalls w' =
        sinkCalls w ++ delivered w (map notification
           (select true m (expiredWhenChecked (clock w) (tick w) m))) /\
      evictions (self w') =
        evictions (self w) + counted w (Z.of_nat (List.length
           (select true m (expiredWhenChecked (clock w) (tick w) m)))) /\
      hits (self w') = hits (self w) /\
      misses (self w') = misses (self w) /\
      sameConfig w w'.
Proof.
  induction m as [|[k e] m IH]; intros pre w acc Hok Hc.
  - exists w. cbn. unfold ret, delivered, counted. rewrite app_nil_r in Hc.
    rewrite Z.add_0_r. destruct (onEvict _), (trackStats _);
      rewrite ?app_nil_r, ?Z.add_0_r; auto 10 using sameConfig_refl.
  - destruct (Map_delete_middle _ _ _ _ Hok) as (Hg & Hd).
    destruct (deleteAndNotifyIfKeyExpired_spec k w)
      as (b & w1 & Hdn & Hcfg & Hh & Hm & Hcase).
    rewrite Hc, Hg in Hcase. destruct Hcase as (Hb & Ht & Hcase).
    change (Map_keys ((k, e) :: m)) with (k :: Map_keys m).
    cbn [purgeLoop expiredWhenChecked]. unfold bind. rewrite Hdn.
    assert (clock w1 = clock w) as Hclk by apply Hcfg.
    assert (Map_ok (pre ++ m)) as Hok1.
    { unfold Map_ok in *. rewrite Map_keys_app in *. cbn in Hok.
      now apply NoDup_remove_1 in Hok. }
    assert (Map_ok ((pre ++ [(k, e)]) ++ m)) as Hok2
      by (rewrite <- app_assoc; exact Hok).
    unfold expiredAt in Hb.
    destruct b.
    + (* the entry is expired and goes *)
      destruct (expiresAt e) as [t|]; [|discriminate].
      rewrite <- Hb. cbn [select Bool.eqb].
      destruct Hcase as (Hc1 & He1 & Hs1). rewrite Hd in Hc1.
      destruct (IH pre w1 (acc + 1) Hok1 Hc1)
        as (w' & Hloop & Hc' & Hs' & He' & Hh' & Hm' & Hcfg').
      rewrite Hclk, Ht in Hloop, Hc', Hs', He'.
      rewrite (sameConfig_delivered _ _ _ Hcfg) in Hs'.
      rewrite (sameConfig_counted _ _ _ Hcfg) in He'.
      exists w'. cbn [List.length map].
      rewrite Nat2Z.inj_succ.
      repeat split; try congruence; try apply (sameConfig_trans _ _ _ Hcfg Hcfg').
      * rewrite Hloop. do 2 f_equal. lia.
      * rewrite Hs', Hs1, <- app_assoc, <- delivered_app. reflexivity.
      * rewrite He', He1. unfold counted. destruct (trackStats _); lia.
    + (* the entry stays *)
      destruct Hcase as (Hc1 & He1 & Hs1).
      replace (pre ++ (k, e) :: m) with ((pre ++ [(k, e)]) ++ m) in Hc1
        by (rewrite <- app_assoc; reflexivity).
      destruct (IH (pre ++ [(k, e)]) w1 acc Hok2 Hc1)
        as (w' & Hloop & Hc' & Hs' & He' & Hh' & Hm' & Hcfg').
      rewrite Hclk, Ht in Hloop, Hc', Hs', He'.
      rewrite (sameConfig_delivered _ _ _ Hcfg) in Hs'.
      rewrite (sameConfig_counted _ _ _ Hcfg) in He'.
      rewrite <- app_assoc in Hc'.
      exists w'.
      destruct (expiresAt e) as [t|]; rewrite <- ?Hb; cbn [select Bool.eqb];
        repeat split; try congruence; try exact Hc';
        try apply (sameConfig_trans _ _ _ Hcfg Hcfg').
Qed.

Lemma select_lengths clk m :
  forall n,
    (List.length (select true m (expiredWhenChecked clk n m)) +
     List.length (select false m (expiredWhenChecked clk n m)) =
     List.length m)%nat.
Proof.
  induction m as [|[k e] m IH]; intros n; cbn [expiredWhenChecked]; [reflexivity|].
  destruct (expiresAt e) as [t|]; [destruct (t <? clk n)|];
    cbn [select Bool.eqb List.length];
    pose proof (IH n); pose proof (IH (S n)); lia.
Qed.

Lemma select_true_expired clk m :
  forall n p,
    In p (select true m (expiredWhenChecked clk n m)) ->
    In p m /\
    exists t i, expiresAt (snd p) = Some t /\ (n <= i)%nat /\ t < clk i.
Proof.
  induction m as [|[k e] m IH]; intros n p; cbn [expiredWhenChecked]; [intros []|].
  destruct (expiresAt e) as [t|] eqn:Hx; [destruct (t <? clk n) eqn:Hlt|];
    cbn [select Bool.eqb].
  - intros [<-|Hin].
    + split; [now left|]. exists t, n. cbn. rewrite Z.ltb_lt in Hlt. auto.
    + apply IH in Hin as (Hin & t' & i & Ht' & Hi & Hlt').
      split; [now right|]. exists t', i. split; [assumption|]. split; [lia|assumption].
  - intros Hin. apply IH in Hin as (Hin & t' & i & Ht' & Hi & Hlt').
    split; [now right|]. exists t', i. split; [assumption|]. split; [lia|assumption].
  - intros Hin. apply IH in Hin as (Hin & t' & i & Ht' & Hi & Hlt').
    split; [now right|]. exists t', i. auto.
Qed.

Lemma select_false_alive clk m :
  forall n p,
    In p m -> ~ In p (select false m (expiredWhenChecked clk n m)) ->
    exists t i, expiresAt (snd p) = Some t /\ (n <= i)%nat /\ t < clk i.
Proof.
  induction m as [|[k e] m IH]; intros n p; cbn [expiredWhenChecked]; [intros []|].
  destruct (expiresAt e) as [t|] eqn:Hx; [destruct (t <? clk n) eqn:Hlt|];
    cbn [select Bool.eqb].
  - intros [<-|Hin] Hout.
    + exists t, n. cbn. rewrite Z.ltb_lt in Hlt. auto.
    + destruct (IH _ _ Hin Hout) as (t' & i & Ht' & Hi & Hlt').
      exists t', i. split; [assumption|]. split; [lia|assumption].
  - intros [<-|Hin] Hout; [exfalso; apply Hout; now left|].
    destruct (IH (S n) p Hin) as (t' & i & Ht' & Hi & Hlt').
    { intros Hs. apply Hout. now right. }
    exists t', i. split; [assumption|]. split; [lia|assumption].
  - intros [<-|Hin] Hout; [exfalso; apply Hout; now left|].
    apply (IH n p Hin). intros Hs. apply Hout. now right.
Qed.

(** C6: [purgeExpired] removes exactly the entries found expired when the
    sweep checks them and returns how many it removed; the entries that stay
    keep their relative order; every removal is notified to the callback and
    counted as an eviction when statistics are tracked. *)
Theorem C6_purgeExpired_removes_exactly_the_expired w r w' :
  Map_ok (cache (self w)) ->
  purgeExpired w = (r, w') ->
  let verdicts := expiredWhenChecked (clock w) (tick w) (cache (self w)) in
  let removed := select true (cache (self w)) verdicts in
  r = Normal (Z.of_nat (List.length removed)) /\
  cache (self w') = select false (cache (self w)) verdicts /\
  Map_size (cache (self w)) - Map_size (cache (self w')) =
    Z.of_nat (List.length removed) /\
  (forall p, In p (cache (self w)) -> ~ In p (cache (self w')) ->
     exists t i, expiresAt (snd p) = Some t /\ (tick w <= i)%nat /\ t < clock w i) /\
  sinkCalls w' = sinkCalls w ++ delivered w (map notification removed) /\
  evictions (self w') =
    evictions (self w) + counted w (Z.of_nat (List.length removed)) /\
  hits (self w') = hits (self w) /\
  misses (self w') = misses (self w).
Proof.
  intros Hok Hp verdicts removed. subst verdicts removed.
  destruct (purgeLoop_spec (cache (self w)) [] w 0 Hok eq_refl)
    as (w1 & Hloop & Hc & Hs & He & Hh & Hm & _).
  unfold purgeExpired, keys, bind, this, ret in Hp. cbn in Hp.
  rewrite Hloop, Z.add_0_l in Hp. injection Hp as <- <-.
  cbn [app] in Hc. rewrite Hc.
  repeat split; try assumption.
  - unfold Map_size.
    pose proof (select_lengths (clock w) (cache (self w)) (tick w)). lia.
  - intros p Hin Hout. eapply select_false_alive; eassumption.
Qed.

(** ** What each method does to the store and to the callback *)

Lemma get_spec key w :
  exists r w',
    get key w = (Normal r, w') /\
    sameConfig w w' /\
    match Map_get key (cache (self w)) with
    | Some e =>
        if expiredAt (clock w (tick w)) e then
          cache (self w') = Map_delete key (cache (self w)) /\
          sinkCalls w' = sinkCalls w ++ delivered w [(key, value e)] /\
          evictions (self w') = evictions (self w) + counted w 1
        else
          cache (self w') = Map_delete key (cache (self w)) ++ [(key, e)] /\
          sinkCalls w' = sinkCalls w /\
          evictions (self w') = evictions (self w)
    | None =>
        cache (self w') = cache (self w) /\
        sinkCalls w' = sinkCalls w /\
        evictions (self w') = evictions (self w)
    end.
Proof.
  destruct_world w. unfold_m. unfold expiredAt, sameConfig, counted, delivered. cbn.
  destruct (Map_get key m) as [[v [t|]]|] eqn:Hg; cbn.
  - destruct (t <? clk n) eqn:Ht; cbn.
    + destruct sink as [f|]; cbn.
      * destruct (f sc key v); cbn; destruct tr; cbn;
          do 2 eexists; (split; [reflexivity|]); cbn; rewrite ?app_nil_r;
          auto 10 with zarith.
      * destruct tr; cbn; do 2 eexists; (split; [reflexivity|]); cbn;
          rewrite ?app_nil_r; auto 10 with zarith.
    + rewrite Hg. cbn. rewrite Map_set_delete.
      destruct tr; cbn; do 2 eexists; (split; [reflexivity|]); cbn; auto 10.
  - rewrite Hg. cbn. rewrite Map_set_delete.
    destruct tr; cbn; do 2 eexists; (split; [reflexivity|]); cbn; auto 10.
  - rewrite Hg. cbn. destruct tr; cbn; do 2 eexists; (split; [reflexivity|]);
      cbn; auto 10.
Qed.

Lemma peek_spec key w :
  exists r w',
    peek key w = (Normal r, w') /\
    sameConfig w w' /\
    match Map_get key (cache (self w)) with
    | Some e =>
        if expiredAt (clock w (tick w)) e then
          cache (self w') = Map_delete key (cache (self w)) /\
          sinkCalls w' = sinkCalls w ++ delivered w [(key, value e)] /\
          evictions (self w') = evictions (self w) + counted w 1
        else
          cache (self w') = cache (self w) /\
          sinkCalls w' = sinkCalls w /\
          evictions (self w') = evictions (self w)
    | None => w' = w
    end.
Proof.
  destruct (deleteAndNotifyIfKeyExpired_spec key w)
    as (b & w1 & Hdn & Hcfg & _ & _ & Hcase).
  unfold peek, bind. rewrite Hdn.
  destruct b; unfold this, ret; do 2 eexists; (split; [reflexivity|]);
    cbn [snd]; (split; [assumption|]);
    destruct (Map_get key (cache (self w))) as [e|]; try tauto;
    destruct Hcase as (<- & _ & Hcase); tauto.
Qed.

Lemma set_evicts_oldest key v ttl w k0 e0 rest :
  cache (self w) = (k0, e0) :: rest ->
  Map_get key (cache (self w)) = None ->
  capacity (self w) <= Map_size (cache (self w)) ->
  let w' := snd (set key v ttl w) in
  sinkCalls w' = sinkCalls w ++ delivered w [(k0, value e0)] /\
  evictions (self w') = evictions (self w) + counted w 1 /\
  sameConfig w w' /\
  if rejectedTtl ttl then
    cache (self w') = Map_delete k0 ((k0, e0) :: rest)
  else
    exists exp,
      cache (self w') =
        Map_delete key (Map_delete k0 ((k0, e0) :: rest)) ++ [(key, mkEntry v exp)].
Proof.
  intros Hc Hg Hfull. destruct (set key v ttl w) as [r w'] eqn:Hs. cbn.
  destruct (set_phases _ _ _ _ _ _ Hs) as (b & w1 & w2 & Hhas & Hev & Htail).
  destruct (has_spec key w) as (b' & w1' & Hhas' & _ & _ & _ & _ & Hcase).
  rewrite Hhas in Hhas'. injection Hhas' as <- <-.
  rewrite Hg in Hcase. destruct Hcase as (-> & ->). cbn [negb andb] in Hev.
  apply Z.leb_le in Hfull. rewrite Hfull in Hev. destruct Hev as (k & Hev).
  destruct (evictOldest_spec w) as (k' & w2' & Hev' & Hcfg & _ & _ & _ & Hcase).
  rewrite Hev in Hev'. injection Hev' as <- <-.
  rewrite Hc in Hcase. destruct Hcase as (-> & Hc2 & He2 & Hs2).
  destruct (rejectedTtl ttl).
  - destruct Htail as (-> & ->). auto.
  - destruct Htail as (exp & -> & Hc' & Hcfg' & _ & _ & He' & Hn' & _).
    rewrite Hn', He', Hc', Hc2. eauto 10 using sameConfig_trans.
Qed.

(** C7: [delete] and [clear] never call the eviction callback; a capacity
    eviction, the removal of an expired entry found by [get], [has] or
    [peek], and each removal made by [purgeExpired] call it exactly once,
    with the key and value of the entry removed. *)
Theorem C7_who_notifies_the_callback :
  (forall key w, sinkCalls (snd (delete key w)) = sinkCalls w) /\
  (forall w, sinkCalls (snd (clear w)) = sinkCalls w) /\
  (forall w f,
     onEvict (events (self w)) = Some f ->
     (forall k0 e0 rest,
        cache (self w) = (k0, e0) :: rest ->
        sinkCalls (snd (evictOldest w)) = sinkCalls w ++ [(k0, value e0)]) /\
     (forall key v ttl k0 e0 rest,
        cache (self w) = (k0, e0) :: rest ->
        Map_get key (cache (self w)) = None ->
        capacity (self w) <= Map_size (cache (self w)) ->
        sinkCalls (snd (set key v ttl w)) = sinkCalls w ++ [(k0, value e0)]) /\
     (forall key e,
        Map_get key (cache (self w)) = Some e ->
        expiredAt (clock w (tick w)) e = true ->
        sinkCalls (snd (get key w)) = sinkCalls w ++ [(key, value e)] /\
        sinkCalls (snd (has key w)) = sinkCalls w ++ [(key, value e)] /\
        sinkCalls (snd (peek key w)) = sinkCalls w ++ [(key, value e)]) /\
     (Map_ok (cache (self w)) ->
      sinkCalls (snd (purgeExpired w)) =
        sinkCalls w ++
        map notification
          (select true (cache (self w))
             (expiredWhenChecked (clock w) (tick w) (cache (self w)))))).
Proof.
  split; [|split].
  - intros key w. reflexivity.
  - intros w. reflexivity.
  - intros w f Hsink.
    assert (forall ps, delivered w ps = ps) as Hdel
      by (intros ps; unfold delivered; now rewrite Hsink).
    split; [|split; [|split]].
    + intros k0 e0 rest Hc.
      destruct (evictOldest_spec w) as (r & w' & -> & _ & _ & _ & _ & Hcase). cbn [snd].
      rewrite Hc in Hcase. destruct Hcase as (_ & _ & _ & ->). now rewrite Hdel.
    + intros key v ttl k0 e0 rest Hc Hg Hfull.
      destruct (set_evicts_oldest key v ttl w k0 e0 rest Hc Hg Hfull) as (Hs & _).
      rewrite Hs. now rewrite Hdel.
    + intros key e Hg Hexp. split; [|split].
      * destruct (get_spec key w) as (r & w' & -> & _ & Hcase). cbn [snd].
        rewrite Hg, Hexp in Hcase. destruct Hcase as (_ & -> & _). now rewrite Hdel.
      * destruct (has_spec key w) as (r & w' & -> & _ & _ & _ & _ & Hcase). cbn [snd].
        rewrite Hg, Hexp in Hcase. destruct Hcase as (-> & _ & _ & _ & ->).
        now rewrite Hdel.
      * destruct (peek_spec key w) as (r & w' & -> & _ & Hcase). cbn [snd].
        rewrite Hg, Hexp in Hcase. destruct Hcase as (_ & -> & _). now rewrite Hdel.
    + intros Hok. destruct (purgeExpired w) as [r w'] eqn:Hp.
      destruct (purgeLoop_spec (cache (self w)) [] w 0 Hok eq_refl)
        as (w1 & Hloop & _ & Hs & _).
      unfold purgeExpired, keys, bind, this, ret in Hp. cbn in Hp.
      rewrite Hloop in Hp. injection Hp as <- <-. cbn. now rewrite Hs, Hdel.
Qed.

(** ** The capacity invariant *)

Lemma Number_toZ_positive x :
  Number_isInteger x = true -> Number_le0 x = false -> 0 < Number_toZ x.
Proof.
  destruct x as [| | |q]; cbn; try discriminate.
  intros Hint Hpos. apply Z.eqb_eq in Hint. apply Z.leb_gt in Hpos.
  apply Z.div_str_pos. split; [lia|].
  apply Z.divide_pos_le; [assumption|].
  apply Z.mod_divide; [lia|assumption].
Qed.

Lemma constructor_bounded capacity0 options (c : LruCache Key Value) clk :
  constructor capacity0 options = Normal c ->
  capacity c = Number_toZ capacity0 /\ cache c = [] /\ bounded (fresh c clk).
Proof.
  unfold constructor.
  destruct (Number_isInteger capacity0) eqn:Hint; [|discriminate].
  destruct (Number_le0 capacity0) eqn:Hle; [discriminate|]. cbn [negb orb].
  match goal with |- context [if ?b then _ else _] => destruct b end;
    [discriminate|].
  intros [= <-]. unfold bounded, Map_ok. cbn.
  repeat split; auto using NoDup_nil.
  - now apply Number_toZ_positive.
  - pose proof (Number_toZ_positive _ Hint Hle). lia.
Qed.

Lemma bounded_shrink w w' key :
  bounded w -> sameConfig w w' ->
  cache (self w') = cache (self w) \/
  cache (self w') = Map_delete key (cache (self w)) ->
  bounded w'.
Proof.
  unfold bounded. intros (Hok & Hpos & Hsz) (Hcap & _) [-> | ->]; rewrite Hcap.
  - auto.
  - split; [now apply Map_delete_NoDup|]. split; [assumption|].
    unfold Map_size in *. pose proof (Map_delete_length key (cache (self w))). lia.
Qed.

Lemma Map_ok_touch key e m : Map_ok m -> Map_ok (Map_delete key m ++ [(key, e)]).
Proof.
  unfold Map_ok. intros Hok. rewrite Map_keys_app. cbn.
  apply NoDup_app.
  - now apply Map_delete_NoDup.
  - repeat constructor. intros [].
  - intros k Hin [<-|[]]. apply Map_keys_delete in Hin. tauto.
Qed.

Lemma bounded_touch w w' key e :
  bounded w -> sameConfig w w' ->
  cache (self w') = Map_delete key (cache (self w)) ++ [(key, e)] ->
  In key (Map_keys (cache (self w))) \/
  Map_size (cache (self w)) < capacity (self w) ->
  bounded w'.
Proof.
  unfold bounded. intros (Hok & Hpos & Hsz) (Hcap & _) -> Hroom. rewrite Hcap.
  split; [now apply Map_ok_touch|]. split; [assumption|].
  unfold Map_size in *. rewrite length_app. cbn [List.length].
  destruct Hroom as [Hin|Hlt].
  - pose proof (Map_delete_length_present key _ Hok Hin). lia.
  - pose proof (Map_delete_length key (cache (self w))). lia.
Qed.

Lemma deleteAndNotifyIfKeyExpired_bounded key w :
  bounded w ->
  bounded (snd (deleteAndNotifyIfKeyExpired key w)) /\
  sameConfig w (snd (deleteAndNotifyIfKeyExpired key w)).
Proof.
  intros Hb.
  destruct (deleteAndNotifyIfKeyExpired_spec key w)
    as (b & w' & -> & Hcfg & _ & _ & Hcase). cbn [snd].
  split; [|assumption]. apply (bounded_shrink w w' key Hb Hcfg).
  destruct (Map_get key (cache (self w))).
  - destruct Hcase as (_ & _ & Hcase). destruct b; tauto.
  - destruct Hcase as (_ & ->). auto.
Qed.

Lemma purgeLoop_bounded ks :
  forall acc w,
    bounded w ->
    bounded (snd (purgeLoop ks acc w)) /\ sameConfig w (snd (purgeLoop ks acc w)).
Proof.
  induction ks as [|key ks IH]; intros acc w Hb; cbn [purgeLoop].
  - unfold ret. cbn. auto using sameConfig_refl.
  - destruct (deleteAndNotifyIfKeyExpired_bounded key w Hb) as (Hb1 & Hcfg1).
    destruct (deleteAndNotifyIfKeyExpired_spec key w) as (b & w1 & Hdn & _).
    unfold bind. rewrite Hdn in *. cbn [snd] in *.
    destruct (IH (if b then acc + 1 else acc) w1 Hb1) as (Hb2 & Hcfg2).
    eauto using sameConfig_trans.
Qed.

Lemma set_bounded key v ttl w :
  bounded w ->
  bounded (snd (set key v ttl w)) /\ sameConfig w (snd (set key v ttl w)).
Proof.
  intros Hb. destruct (set key v ttl w) as [r w'] eqn:Hs. cbn [snd].
  destruct (set_phases _ _ _ _ _ _ Hs) as (b & w1 & w2 & Hhas & Hev & Htail).
  destruct (has_spec key w) as (b' & w1' & Hhas' & Hcfg1 & _ & _ & Hb' & Hcase).
  rewrite Hhas in Hhas'. injection Hhas' as <- <-.
  assert (bounded w1) as Hb1.
  { apply (bounded_shrink w w1 key Hb Hcfg1).
    destruct (Map_get key (cache (self w))).
    - destruct Hcase as (_ & _ & Hcase). destruct b; tauto.
    - destruct Hcase as (_ & ->). auto. }
  assert (capacity (self w1) = capacity (self w)) as Hcap1 by apply Hcfg1.
  (* after the eviction phase there is room for [key] *)
  assert (bounded w2 /\ sameConfig w1 w2 /\
          Map_has key (cache (self w2)) = b /\
          (b = true \/ Map_size (cache (self w2)) < capacity (self w2)))
    as (Hb2 & Hcfg2 & Hhas2 & Hroom).
  { destruct b; cbn [negb andb] in Hev.
    - subst w2. auto using sameConfig_refl.
    - destruct (capacity (self w) <=? Map_size (cache (self w1))) eqn:Hfull.
      + destruct Hev as (k & Hev).
        destruct (evictOldest_spec w1) as (k' & w2' & Hev' & Hcfg2 & _ & _ & _ & Hold).
        rewrite Hev in Hev'. injection Hev' as <- <-.
        apply Z.leb_le in Hfull.
        destruct Hb1 as (Hok1 & Hpos1 & Hsz1).
        assert (capacity (self w2) = capacity (self w1)) as Hcap2 by apply Hcfg2.
        destruct (cache (self w1)) as [|[k0 e0] rest] eqn:Hc1.
        { unfold Map_size in *. cbn in *. lia. }
        destruct Hold as (-> & Hc2 & _).
        rewrite (Map_delete_head _ _ _ Hok1) in Hc2.
        assert (Map_has key rest = false) as Hrest.
        { unfold Map_has in *. cbn in Hb'.
          destruct (Key_eq_dec key k0); [discriminate|]. now rewrite <- Hb'. }
        unfold bounded. rewrite Hc2, Hcap2.
        unfold Map_ok, Map_size in *. cbn in Hok1, Hsz1, Hfull.
        apply NoDup_cons_iff in Hok1 as (_ & Hok1).
        split; [|split; [assumption|split; [assumption|right; lia]]].
        split; [assumption|]. split; lia.
      + subst w2. apply Z.leb_gt in Hfull.
        repeat split; auto using sameConfig_refl; try apply Hb1. right. lia. }
  assert (sameConfig w w2) as Hcfg by eauto using sameConfig_trans.
  destruct (rejectedTtl ttl).
  - destruct Htail as (_ & ->). auto.
  - destruct Htail as (exp & _ & Hc' & Hcfg' & _).
    split; [|eauto using sameConfig_trans].
    apply (bounded_touch w2 w' key (mkEntry v exp) Hb2 Hcfg' Hc').
    destruct Hroom as [->|Hlt]; [left|now right].
    unfold Map_has in Hhas2.
    destruct (Map_get key (cache (self w2))) eqn:Hg; [|discriminate].
    destruct (in_dec Key_eq_dec key (Map_keys (cache (self w2)))) as [|Hn];
      [assumption|]. apply Map_get_None in Hn. congruence.
Qed.

Lemma exec_bounded o w :
  bounded w -> bounded (snd (exec o w)) /\ sameConfig w (snd (exec o w)).
Proof.
  intros Hb. destruct o as [key v ttl|key|key|key|key| |]; cbn [exec]; unfold bind.
  - destruct (set_bounded key v ttl w Hb) as (Hb' & Hcfg).
    destruct (set key v ttl w) as [[[]|err] w']; cbn in *; auto.
  - destruct (get_spec key w) as (r & w' & -> & Hcfg & Hcase). cbn.
    split; [|assumption].
    destruct (Map_get key (cache (self w))) as [e|] eqn:Hg.
    + destruct (expiredAt (clock w (tick w)) e).
      * apply (bounded_shrink w w' key Hb Hcfg). tauto.
      * apply (bounded_touch w w' key e Hb Hcfg); [tauto|]. left.
        destruct (in_dec Key_eq_dec key (Map_keys (cache (self w)))) as [|Hn];
          [assumption|]. apply Map_get_None in Hn. congruence.
    + apply (bounded_shrink w w' key Hb Hcfg). tauto.
  - destruct (peek_spec key w) as (r & w' & -> & Hcfg & Hcase). cbn.
    split; [|assumption]. apply (bounded_shrink w w' key Hb Hcfg).
    destruct (Map_get key (cache (self w))) as [e|].
    + destruct (expiredAt (clock w (tick w)) e); tauto.
    + subst w'. auto.
  - destruct (has_spec key w) as (b & w' & -> & Hcfg & _ & _ & _ & Hcase). cbn.
    split; [|assumption]. apply (bounded_shrink w w' key Hb Hcfg).
    destruct (Map_get key (cache (self w))) as [e|].
    + destruct Hcase as (_ & _ & Hcase). destruct b; tauto.
    + destruct Hcase as (_ & ->). auto.
  - unfold delete, bind, this, update, ret. cbn.
    split; [|unfold sameConfig; cbn; auto].
    apply (bounded_shrink w _ key Hb); [unfold sameConfig; cbn; auto|]. cbn. auto.
  - unfold clear, update, ret. cbn. split; [|unfold sameConfig; cbn; auto].
    destruct Hb as (_ & Hpos & _). unfold bounded, Map_ok, Map_size. cbn.
    repeat split; auto using NoDup_nil. lia.
  - unfold purgeExpired, keys, bind, this, ret. cbn [fst snd].
    destruct (purgeLoop_bounded (Map_keys (cache (self w))) 0 w Hb) as (Hb' & Hcfg).
    destruct (purgeLoop _ 0 w) as [[n|err] w']; cbn in *; auto.
Qed.

Lemma run_bounded ops :
  forall w, bounded w -> bounded (run ops w) /\ sameConfig w (run ops w).
Proof.
  induction ops as [|o ops IH]; intros w Hb; cbn.
  - auto using sameConfig_refl.
  - destruct (exec_bounded o w Hb) as (Hb1 & Hcfg1).
    destruct (IH _ Hb1) as (Hb2 & Hcfg2). eauto using sameConfig_trans.
Qed.

Lemma trace_bounded ops :
  forall w, bounded w ->
    Forall (fun w' => Map_size (cache (self w')) <= capacity (self w)) (trace ops w).
Proof.
  induction ops as [|o ops IH]; intros w Hb; cbn; constructor.
  - destruct (exec_bounded o w Hb) as ((_ & _ & Hsz) & (Hcap & _)). lia.
  - destruct (exec_bounded o w Hb) as (Hb1 & (Hcap & _)).
    rewrite <- Hcap. now apply IH.
Qed.

(** C1: starting from a freshly constructed cache of capacity [C], after
    every call of any sequence of [set], [get], [peek], [has], [delete],
    [clear] and [purgeExpired] the store holds at most [C] entries and the
    world reached satisfies the class invariant; and in any world that
    satisfies it, a [set] of a key that is not in the store, made while the
    store holds as many entries as the capacity, removes exactly the entry
    at the least-recently-used end (and tells the callback so). *)
Theorem C1_size_bounded_and_lru_entry_evicted
    capacity0 options (c : LruCache Key Value) clk :
  constructor capacity0 options = Normal c ->
  capacity c = Number_toZ capacity0 /\
  (forall ops,
     Forall (fun w => Map_size (cache (self w)) <= capacity c)
            (trace ops (fresh c clk)) /\
     bounded (run ops (fresh c clk)) /\
     capacity (self (run ops (fresh c clk))) = capacity c) /\
  (forall w key v ttl k0 e0 rest,
     bounded w ->
     cache (self w) = (k0, e0) :: rest ->
     Map_get key (cache (self w)) = None ->
     Map_size (cache (self w)) = capacity (self w) ->
     let w' := snd (set key v ttl w) in
     sinkCalls w' = sinkCalls w ++ delivered w [(k0, value e0)] /\
     if rejectedTtl ttl then cache (self w') = rest
     else exists exp, cache (self w') = rest ++ [(key, mkEntry v exp)]).
Proof.
  intros Hnew.
  destruct (constructor_bounded _ _ _ clk Hnew) as (Hcap & _ & Hb0).
  split; [assumption|]. split.
  - intros ops. split; [apply (trace_bounded ops _ Hb0)|].
    destruct (run_bounded ops _ Hb0) as (Hb & (Hcapw & _)). auto.
  - intros w key v ttl k0 e0 rest (Hok & _ & _) Hc Hg Hfull w'.
    assert (capacity (self w) <= Map_size (cache (self w))) as Hge by lia.
    destruct (set_evicts_oldest key v ttl w k0 e0 rest Hc Hg Hge)
      as (Hs & _ & _ & Hcase).
    fold w' in Hs, Hcase. split; [assumption|].
    rewrite Hc in Hok. rewrite (Map_delete_head _ _ _ Hok) in Hcase.
    rewrite Hc in Hg. cbn in Hg. destruct (Key_eq_dec key k0); [discriminate|].
    rewrite Map_delete_absent in Hcase by (now apply Map_get_None).
    assumption.
Qed.

(** ** A throwing callback cannot be told from a quiet one *)

Lemma sim_ret {A} (a : A) : sim (@ret Key Value A a) (ret a).
Proof. intros w1 w2 Hag. cbn. auto. Qed.

Lemma sim_throw {A} (err : Exn) : sim (@throw Key Value A err) (throw err).
Proof. intros w1 w2 Hag. cbn. auto. Qed.

Lemma sim_bind {A B} (c1 c2 : M Key Value A) (k1 k2 : A -> M Key Value B) :
  sim c1 c2 -> (forall a, sim (k1 a) (k2 a)) -> sim (bind c1 k1) (bind c2 k2).
Proof.
  intros Hc Hk w1 w2 Hag. unfold bind.
  destruct (Hc w1 w2 Hag) as (Hr & Hag').
  destruct (c1 w1) as [[a1|e1] w1'], (c2 w2) as [[a2|e2] w2']; cbn in *;
    try discriminate.
  - injection Hr as <-. now apply Hk.
  - injection Hr as <-. auto.
Qed.

Lemma sim_this {B} (k1 k2 : LruCache Key Value -> M Key Value B) :
  (forall c1 c2, agreeObj c1 c2 -> sim (k1 c1) (k2 c2)) ->
  sim (bind this k1) (bind this k2).
Proof. intros Hk w1 w2 Hag. unfold bind, this. apply Hk; [apply Hag|assumption]. Qed.

Lemma sim_update (f : LruCache Key Value -> LruCache Key Value) :
  (forall c1 c2, agreeObj c1 c2 -> agreeObj (f c1) (f c2)) ->
  sim (update f) (update f).
Proof.
  intros Hf w1 w2 (Hobj & Hrest). unfold update, agree. cbn. auto.
Qed.

Lemma sim_when b (c1 c2 : M Key Value unit) :
  sim c1 c2 -> sim (when b c1) (when b c2).
Proof. intros Hc. destruct b; [assumption|apply sim_ret]. Qed.

Lemma sim_Date_now : sim (@Date_now Key Value) Date_now.
Proof.
  intros w1 w2 (Hobj & Hclk & Htick & Hs). unfold Date_now, agree. cbn.
  rewrite Hclk, Htick. auto.
Qed.

Lemma sim_emitEviction key (v : Value) :
  sim (emitEviction key v) (emitEviction key v).
Proof.
  intros w1 w2 (Hobj & Hclk & Htick & Hs).
  pose proof Hobj as (_ & _ & _ & _ & _ & _ & _ & Hsink).
  unfold_m. unfold agree. cbn.
  destruct (onEvict (events (self w1))) as [f1|],
           (onEvict (events (self w2))) as [f2|]; cbn.
  - destruct (f1 (sinkCalls w1) key v), (f2 (sinkCalls w2) key v); cbn;
      rewrite Hs; auto.
  - destruct Hsink as (_ & Hsink). discriminate Hsink. reflexivity.
  - destruct Hsink as (Hsink & _). discriminate Hsink. reflexivity.
  - auto.
Qed.

Ltac solve_obj :=
  let c1 := fresh "c" in let c2 := fresh "c" in
  intros c1 c2;
  unfold agreeObj, set_cache, incr_hits, incr_misses, incr_evictions; cbn;
  intuition congruence.

Ltac use_obj Hc :=
  let Hcap := fresh "Hcap" in let Hcache := fresh "Hcache" in
  let Hdt := fresh "Hdt" in let Htr := fresh "Htr" in
  pose proof Hc as (Hcap & Hcache & Hdt & _ & _ & _ & Htr & _);
  rewrite ?Hcap, ?Hcache, ?Hdt, ?Htr; clear Hcap Hcache Hdt Htr.

Ltac sim_step :=
  match goal with
  | |- sim (ret _) (ret _) => apply sim_ret
  | |- sim (throw _) (throw _) => apply sim_throw
  | |- sim (bind this _) (bind this _) =>
      let c1 := fresh "c" in let c2 := fresh "c" in let Hc := fresh "Hc" in
      apply sim_this; intros c1 c2 Hc; use_obj Hc
  | |- sim (bind _ _) (bind _ _) => apply sim_bind; [|intros ?]
  | |- sim (update _) (update _) => apply sim_update; solve_obj
  | |- sim (when _ _) (when _ _) => apply sim_when
  | |- sim Date_now Date_now => apply sim_Date_now
  | |- sim (emitEviction _ _) (emitEviction _ _) => apply sim_emitEviction
  | |- sim (match ?x with _ => _ end) (match ?x with _ => _ end) => destruct x
  | |- sim (if ?x then _ else _) (if ?x then _ else _) => destruct x
  end.

Lemma sim_deleteAndNotifyIfKeyExpired key :
  sim (@deleteAndNotifyIfKeyExpired Key Value _ key)
      (deleteAndNotifyIfKeyExpired key).
Proof. unfold deleteAndNotifyIfKeyExpired, isExpired. repeat sim_step. Qed.

Lemma sim_setMostRecentlyUsed key (v : Value) exp :
  sim (setMostRecentlyUsed key v exp) (setMostRecentlyUsed key v exp).
Proof. unfold setMostRecentlyUsed. repeat sim_step. Qed.

Lemma sim_has key : sim (@has Key Value _ key) (has key).
Proof.
  unfold has. apply sim_bind; [apply sim_deleteAndNotifyIfKeyExpired|].
  intros b. repeat sim_step.
Qed.

Lemma sim_evictOldest : sim (@evictOldest Key Value _) evictOldest.
Proof. unfold evictOldest. repeat sim_step. Qed.

Lemma sim_set key (v : Value) ttl : sim (set key v ttl) (set key v ttl).
Proof.
  unfold set. apply sim_bind; [apply sim_has|]. intros b.
  apply sim_bind; [unfold size; repeat sim_step|]. intros n.
  sim_step.
  apply sim_bind.
  { apply sim_when. apply sim_bind; [apply sim_evictOldest|]. intros ?. sim_step. }
  intros _. apply sim_bind.
  - repeat sim_step.
  - intros exp. apply sim_setMostRecentlyUsed.
Qed.

Lemma sim_get key : sim (@get Key Value _ key) (get key).
Proof.
  unfold get. apply sim_bind; [apply sim_deleteAndNotifyIfKeyExpired|].
  intros b. destruct b.
  - repeat sim_step.
  - sim_step. sim_step.
    + apply sim_bind; [apply sim_setMostRecentlyUsed|]. intros _. repeat sim_step.
    + repeat sim_step.
Qed.

Lemma sim_peek key : sim (@peek Key Value _ key) (peek key).
Proof.
  unfold peek. apply sim_bind; [apply sim_deleteAndNotifyIfKeyExpired|].
  intros b. repeat sim_step.
Qed.

Lemma sim_delete key : sim (@delete Key Value _ key) (delete key).
Proof. unfold delete. repeat sim_step. Qed.

Lemma sim_clear : sim (@clear Key Value) clear.
Proof. unfold clear. apply sim_update. solve_obj. Qed.

Lemma sim_purgeLoop ks :
  forall acc, sim (@purgeLoop Key Value _ ks acc) (purgeLoop ks acc).
Proof.
  induction ks as [|key ks IH]; intros acc; cbn [purgeLoop].
  - apply sim_ret.
  - apply sim_bind; [apply sim_deleteAndNotifyIfKeyExpired|]. intros b. apply IH.
Qed.

Lemma sim_purgeExpired : sim (@purgeExpired Key Value _) purgeExpired.
Proof.
  unfold purgeExpired.
  apply sim_bind; [unfold keys; repeat sim_step|]. intros ks. apply sim_purgeLoop.
Qed.

Lemma sim_exec (o : Op Key Value) : sim (exec o) (exec o).
Proof.
  destruct o; cbn [exec];
    (apply sim_bind; [|intros ?; apply sim_ret]);
    auto using sim_set, sim_get, sim_peek, sim_has, sim_delete, sim_clear,
      sim_purgeExpired.
Qed.

(** C8: whatever the callback does, the cache methods end the same way and
    leave the same store, recency order and counters: a callback that throws
    is caught by [emitEviction], which always returns normally, and any two
    callbacks, one that throws and one that returns in particular, give the
    same completion and agreeing worlds for every method. *)
Theorem C8_callback_failure_is_contained :
  (forall key (v : Value) w, fst (emitEviction key v w) = Normal tt) /\
  (forall (o : Op Key Value) w (f g : Callback Key Value),
     let r1 := exec o (with_onEvict (Some f) w) in
     let r2 := exec o (with_onEvict (Some g) w) in
     fst r1 = fst r2 /\
     cache (self (snd r1)) = cache (self (snd r2)) /\
     hits (self (snd r1)) = hits (self (snd r2)) /\
     misses (self (snd r1)) = misses (self (snd r2)) /\
     evictions (self (snd r1)) = evictions (self (snd r2)) /\
     sinkCalls (snd r1) = sinkCalls (snd r2) /\
     tick (snd r1) = tick (snd r2)).
Proof.
  split.
  - intros key v w. unfold_m. cbn.
    destruct (onEvict (events (self w))) as [f|]; [|reflexivity]. cbn.
    destruct (f (sinkCalls w) key v); reflexivity.
  - intros o w f g r1 r2.
    assert (agree (with_onEvict (Some f) w) (with_onEvict (Some g) w)) as Hag.
    { unfold agree, agreeObj, with_onEvict. cbn. intuition discriminate. }
    destruct (sim_exec o _ _ Hag) as (Hr & (Hobj & _ & Htick & Hs)).
    fold r1 r2 in Hr, Hobj, Htick, Hs. unfold agreeObj in Hobj. tauto.
Qed.

(** * Further properties of the class *)

(** ** Construction *)

Lemma Number_le0_gt0 x :
  Number_isInteger x = true -> Number_le0 x = negb (Number_gt0 x).
Proof.
  destruct x as [| | |q]; cbn; try discriminate. intros _.
  destruct (Qnum q <=? 0) eqn:Hle, (0 <? Qnum q) eqn:Hlt; cbn; try reflexivity.
  - apply Z.leb_le in Hle. apply Z.ltb_lt in Hlt. lia.
  - apply Z.leb_gt in Hle. apply Z.ltb_ge in Hlt. lia.
Qed.

Lemma rejects_iff_not_positiveInteger x :
  negb (Number_isInteger x) || Number_le0 x = negb (positiveInteger x).
Proof.
  unfold positiveInteger. destruct (Number_isInteger x) eqn:Hint; cbn.
  - now apply Number_le0_gt0.
  - reflexivity.
Qed.

(** X1: [new LruCache(capacity, options)] succeeds exactly when the capacity
    is a positive integer and the default TTL is absent, [null] or a positive
    integer; a bad capacity is reported before a bad TTL. The cache it
    returns is empty, has zeroed counters, the given capacity and a default
    TTL that is positive when there is one. *)
Theorem X1_constructor_validates_then_builds_an_empty_cache
    capacity0 (options : option (LruCacheOptions Key Value)) :
  match constructor capacity0 options with
  | Normal c =>
      positiveInteger capacity0 = true /\
      acceptableTtl (options_ttl options) = true /\
      capacity c = Number_toZ capacity0 /\
      0 < capacity c /\
      cache c = [] /\
      hits c = 0 /\ misses c = 0 /\ evictions c = 0 /\
      match options_ttl options with
      | Num x => defaultTtl c = Some (Number_toZ x) /\ 0 < Number_toZ x
      | _ => defaultTtl c = None
      end
  | Throw err =>
      if positiveInteger capacity0 then
        acceptableTtl (options_ttl options) = false /\
        err = Error "TTL must be a positive integer if specified"
      else err = Error "Capacity must be a positive integer"
  end.
Proof.
  unfold constructor. rewrite rejects_iff_not_positiveInteger.
  destruct (positiveInteger capacity0) eqn:Hcap; cbn [negb]; [|reflexivity].
  fold (options_ttl options).
  assert (0 < Number_toZ capacity0) as Hpos.
  { unfold positiveInteger in Hcap. apply andb_prop in Hcap as (Hint & Hgt).
    apply Number_toZ_positive; [assumption|].
    rewrite (Number_le0_gt0 _ Hint), Hgt. reflexivity. }
  destruct (options_ttl options) as [| |x]; cbn; auto 10.
  rewrite rejects_iff_not_positiveInteger.
  destruct (positiveInteger x) eqn:Hx; cbn; auto.
  assert (0 < Number_toZ x) as Hposx.
  { unfold positiveInteger in Hx. apply andb_prop in Hx as (Hint & Hgt).
    apply Number_toZ_positive; [assumption|].
    rewrite (Number_le0_gt0 _ Hint), Hgt. reflexivity. }
  auto 12.
Qed.

(** ** The read paths side by side *)

Lemma get_result key w :
  fst (get key w) =
  Normal match Map_get key (cache (self w)) with
         | Some e => if expiredAt (clock w (tick w)) e then None else Some (value e)
         | None => None
         end.
Proof.
  destruct_world w. unfold_m. unfold expiredAt. cbn.
  destruct (Map_get key m) as [[v [t|]]|] eqn:Hg; cbn.
  - destruct (t <? clk n) eqn:Ht; cbn.
    + destruct sink as [f|]; cbn.
      * destruct (f sc key v); cbn; destruct tr; reflexivity.
      * destruct tr; reflexivity.
    + rewrite Hg. cbn. destruct tr; reflexivity.
  - rewrite Hg. cbn. destruct tr; reflexivity.
  - rewrite Hg. cbn. destruct tr; reflexivity.
Qed.

Lemma peek_result key w :
  fst (peek key w) =
  Normal match Map_get key (cache (self w)) with
         | Some e => if expiredAt (clock w (tick w)) e then None else Some (value e)
         | None => None
         end.
Proof.
  destruct (deleteAndNotifyIfKeyExpired_spec key w)
    as (b & w1 & Hdn & _ & _ & _ & Hcase).
  unfold peek, bind. rewrite Hdn.
  destruct (Map_get key (cache (self w))) as [e|] eqn:Hg.
  - destruct Hcase as (-> & _ & Hcase).
    destruct (expiredAt (clock w (tick w)) e); [reflexivity|].
    destruct Hcase as (Hc & _). unfold this, ret. cbn. now rewrite Hc, Hg.
  - destruct Hcase as (-> & ->). unfold this, ret. cbn. now rewrite Hg.
Qed.

(** X2: [has] reports a key exactly when it is bound to an entry that is not
    expired, an entry whose expiry equals the current time still being there;
    it never touches the hit and miss counters and, apart from dropping the
    entry it finds expired, leaves the store and its order as they were. *)
Theorem X2_has_is_an_expiry_aware_probe key w r w' :
  has key w = (r, w') ->
  hits (self w') = hits (self w) /\
  misses (self w') = misses (self w) /\
  match Map_get key (cache (self w)) with
  | Some e =>
      match expiresAt e with
      | Some t =>
          if clock w (tick w) <=? t
          then r = Normal true /\ cache (self w') = cache (self w)
          else r = Normal false /\
               cache (self w') = Map_delete key (cache (self w))
      | None => r = Normal true /\ w' = w
      end
  | None => r = Normal false /\ w' = w
  end.
Proof.
  intros Hhas.
  destruct (has_spec key w) as (b & w1 & Hhas' & _ & Hh & Hm & _ & Hcase).
  rewrite Hhas in Hhas'. injection Hhas' as -> ->.
  split; [assumption|]. split; [assumption|].
  destruct (Map_get key (cache (self w))) as [e|] eqn:Hg;
    [|destruct Hcase as (-> & ->); auto].
  unfold expiredAt in Hcase. destruct (expiresAt e) as [t|] eqn:Hx.
  - rewrite Z.leb_antisym.
    destruct Hcase as (-> & _ & Hcase).
    destruct (t <? clock w (tick w)); cbn in *; tauto.
  - destruct Hcase as (-> & _ & _). split; [reflexivity|].
    clear Hh Hm. revert Hhas. destruct_world w. unfold_m. cbn in *.
    rewrite Hg, Hx. cbn. now intros [= _ <-].
Qed.

(** X3: on any key and in any world [get] and [peek] return the same thing,
    and [has] answers [true] exactly when they return a value. *)
Theorem X3_get_peek_and_has_agree key w :
  fst (get key w) = fst (peek key w) /\
  fst (has key w) =
    Normal match fst (peek key w) with
           | Normal (Some _) => true
           | _ => false
           end.
Proof.
  rewrite get_result, peek_result. split; [reflexivity|].
  destruct (has_spec key w) as (b & w1 & -> & _ & _ & _ & _ & Hcase). cbn [fst].
  destruct (Map_get key (cache (self w))) as [e|].
  - destruct Hcase as (-> & _). now destruct (expiredAt _ e).
  - now destruct Hcase as (-> & _).
Qed.

(** ** Accounting: what every method does to the counters and the callback *)

Lemma delivered_nil w : delivered w [] = [].
Proof. unfold delivered. now destruct (onEvict _). Qed.

Lemma counted_0 w : counted w 0 = 0.
Proof. unfold counted. now destruct (trackStats _). Qed.

Lemma counted_nonneg w n : 0 <= n -> 0 <= counted w n.
Proof. unfold counted. destruct (trackStats _); lia. Qed.

Lemma accounted_none w w' :
  sinkCalls w' = sinkCalls w -> evictions (self w') = evictions (self w) ->
  accounted w w'.
Proof.
  intros Hs He. exists []. rewrite delivered_nil, app_nil_r. cbn.
  rewrite counted_0. split; [assumption|lia].
Qed.

Lemma accounted_one w w' p :
  sinkCalls w' = sinkCalls w ++ delivered w [p] ->
  evictions (self w') = evictions (self w) + counted w 1 ->
  accounted w w'.
Proof. intros Hs He. exists [p]. auto. Qed.

Lemma accounted_trans w1 w2 w3 :
  sameConfig w1 w2 -> accounted w1 w2 -> accounted w2 w3 -> accounted w1 w3.
Proof.
  intros Hcfg (ps & Hs & He) (qs & Hs' & He'). exists (ps ++ qs).
  rewrite Hs', He', Hs, He.
  rewrite (sameConfig_delivered _ _ _ Hcfg), (sameConfig_counted _ _ _ Hcfg).
  rewrite delivered_app, app_assoc, length_app, Nat2Z.inj_add, counted_add.
  split; [reflexivity|lia].
Qed.

Ltac steady_intro :=
  unfold steady; split; [|split; [|split]]; try assumption.

Lemma steady_refl w : steady w w.
Proof. unfold steady. auto using sameConfig_refl, accounted_none. Qed.

Lemma steady_trans w1 w2 w3 : steady w1 w2 -> steady w2 w3 -> steady w1 w3.
Proof.
  intros (Hc & Hh & Hm & Ha) (Hc' & Hh' & Hm' & Ha'). unfold steady.
  repeat split; try congruence; try apply (sameConfig_trans _ _ _ Hc Hc').
  apply (accounted_trans _ _ _ Hc Ha Ha').
Qed.

Lemma deleteAndNotifyIfKeyExpired_steady key w :
  steady w (snd (deleteAndNotifyIfKeyExpired key w)).
Proof.
  destruct (deleteAndNotifyIfKeyExpired_spec key w)
    as (b & w' & -> & Hcfg & Hh & Hm & Hcase). cbn [snd].
  steady_intro.
  destruct (Map_get key (cache (self w))) as [e|].
  - destruct Hcase as (_ & _ & Hcase). destruct b.
    + destruct Hcase as (_ & He & Hs). eapply accounted_one; eassumption.
    + destruct Hcase as (_ & He & Hs). now apply accounted_none.
  - destruct Hcase as (_ & ->). now apply accounted_none.
Qed.

Lemma has_world key w :
  snd (has key w) = snd (deleteAndNotifyIfKeyExpired key w).
Proof.
  destruct (deleteAndNotifyIfKeyExpired_spec key w) as (b & w' & Hdn & _).
  unfold has, bind. rewrite Hdn. now destruct b.
Qed.

Lemma peek_world key w :
  snd (peek key w) = snd (deleteAndNotifyIfKeyExpired key w).
Proof.
  destruct (deleteAndNotifyIfKeyExpired_spec key w) as (b & w' & Hdn & _).
  unfold peek, bind. rewrite Hdn. now destruct b.
Qed.

Lemma evictOldest_steady w : steady w (snd (evictOldest w)).
Proof.
  destruct (evictOldest_spec w) as (r & w' & -> & Hcfg & Hh & Hm & _ & Hcase).
  cbn [snd]. steady_intro.
  destruct (cache (self w)) as [|[k e] rest].
  - destruct Hcase as (_ & ->). now apply accounted_none.
  - destruct Hcase as (_ & _ & He & Hs). eapply accounted_one; eassumption.
Qed.

Lemma set_steady key v ttl w : steady w (snd (set key v ttl w)).
Proof.
  destruct (set key v ttl w) as [r w'] eqn:Hs. cbn [snd].
  destruct (set_phases _ _ _ _ _ _ Hs) as (b & w1 & w2 & Hhas & Hev & Htail).
  assert (steady w w1) as H1.
  { pose proof (deleteAndNotifyIfKeyExpired_steady key w) as Hst.
    rewrite <- has_world, Hhas in Hst. exact Hst. }
  assert (steady w1 w2) as H2.
  { destruct (negb b && (capacity (self w) <=? Map_size (cache (self w1)))).
    - destruct Hev as (k & Hev). pose proof (evictOldest_steady w1) as Hst.
      now rewrite Hev in Hst.
    - subst w2. apply steady_refl. }
  apply (steady_trans _ _ _ H1). apply (steady_trans _ _ _ H2).
  destruct (rejectedTtl ttl).
  - destruct Htail as (_ & ->). apply steady_refl.
  - destruct Htail as (exp & _ & _ & Hcfg & Hh & Hm & He & Hn & _).
    steady_intro. now apply accounted_none.
Qed.

Lemma purgeLoop_steady ks : forall acc w, steady w (snd (purgeLoop ks acc w)).
Proof.
  induction ks as [|key ks IH]; intros acc w; cbn [purgeLoop].
  - apply steady_refl.
  - pose proof (deleteAndNotifyIfKeyExpired_steady key w) as Hst.
    destruct (deleteAndNotifyIfKeyExpired_spec key w) as (b & w1 & Hdn & _).
    unfold bind. rewrite Hdn in *. cbn [snd] in Hst.
    apply (steady_trans _ _ _ Hst). apply IH.
Qed.

Lemma get_counters key w :
  hits (self w) <= hits (self (snd (get key w))) /\
  misses (self w) <= misses (self (snd (get key w))) /\
  hits (self (snd (get key w))) + misses (self (snd (get key w))) =
    hits (self w) + misses (self w) + counted w 1.
Proof.
  destruct_world w. unfold_m. unfold counted. cbn.
  destruct (Map_get key m) as [[v [t|]]|] eqn:Hg; cbn.
  - destruct (t <? clk n) eqn:Ht; cbn.
    + destruct sink as [f|]; cbn.
      * destruct (f sc key v); cbn; destruct tr; cbn; lia.
      * destruct tr; cbn; lia.
    + rewrite Hg. cbn. destruct tr; cbn; lia.
  - rewrite Hg. cbn. destruct tr; cbn; lia.
  - rewrite Hg. cbn. destruct tr; cbn; lia.
Qed.

Lemma get_accounted key w :
  sameConfig w (snd (get key w)) /\ accounted w (snd (get key w)).
Proof.
  destruct (get_spec key w) as (r & w' & -> & Hcfg & Hcase). cbn [snd].
  split; [assumption|].
  destruct (Map_get key (cache (self w))) as [e|].
  - destruct (expiredAt (clock w (tick w)) e).
    + destruct Hcase as (_ & Hs & He). eapply accounted_one; eassumption.
    + destruct Hcase as (_ & Hs & He). now apply accounted_none.
  - destruct Hcase as (_ & Hs & He). now apply accounted_none.
Qed.

(** One call: the configuration stays, evictions are accounted for, the hit
    and miss counters never go down, and together they grow by one on a
    tracked [get] and by nothing otherwise. *)
Lemma exec_accounting (o : Op Key Value) w :
  sameConfig w (snd (exec o w)) /\
  accounted w (snd (exec o w)) /\
  hits (self w) <= hits (self (snd (exec o w))) /\
  misses (self w) <= misses (self (snd (exec o w))) /\
  hits (self (snd (exec o w))) + misses (self (snd (exec o w))) =
    hits (self w) + misses (self w) + counted w (Z.of_nat (countGets [o])).
Proof.
  assert (forall w', steady w w' ->
            sameConfig w w' /\ accounted w w' /\
            hits (self w) <= hits (self w') /\
            misses (self w) <= misses (self w') /\
            hits (self w') + misses (self w') =
              hits (self w) + misses (self w) + counted w 0) as Hsteady.
  { intros w' (Hc & Hh & Hm & Ha). rewrite counted_0.
    split; [assumption|]. split; [assumption|]. lia. }
  destruct o as [key v ttl|key|key|key|key| |]; cbn [exec countGets Z.of_nat];
    unfold bind.
  - pose proof (set_steady key v ttl w) as Hst.
    destruct (set key v ttl w) as [[[]|err] w']; cbn [snd] in *; auto.
  - pose proof (get_counters key w) as Hcnt.
    pose proof (get_accounted key w) as (Hcfg & Hacc).
    destruct (get key w) as [[r|err] w']; cbn [snd] in *; tauto.
  - pose proof (deleteAndNotifyIfKeyExpired_steady key w) as Hst.
    rewrite <- peek_world in Hst.
    destruct (peek key w) as [[r|err] w']; cbn [snd] in *; auto.
  - pose proof (deleteAndNotifyIfKeyExpired_steady key w) as Hst.
    rewrite <- has_world in Hst.
    destruct (has key w) as [[r|err] w']; cbn [snd] in *; auto.
  - apply Hsteady. unfold delete, bind, this, update, ret, steady, sameConfig.
    cbn. repeat split. now apply accounted_none.
  - apply Hsteady. unfold clear, update, ret, steady, sameConfig.
    cbn. repeat split. now apply accounted_none.
  - pose proof (purgeLoop_steady (Map_keys (cache (self w))) 0 w) as Hst.
    unfold purgeExpired, keys, bind, this, ret. cbn [fst snd].
    destruct (purgeLoop _ 0 w) as [[r|err] w']; cbn [snd] in *; auto.
Qed.

Lemma countGets_cons (o : Op Key Value) ops :
  Z.of_nat (countGets (o :: ops)) =
  Z.of_nat (countGets [o]) + Z.of_nat (countGets ops).
Proof. destruct o; cbn [countGets]; lia. Qed.

Lemma run_accounting (ops : list (Op Key Value)) :
  forall w,
    sameConfig w (run ops w) /\
    accounted w (run ops w) /\
    hits (self w) <= hits (self (run ops w)) /\
    misses (self w) <= misses (self (run ops w)) /\
    hits (self (run ops w)) + misses (self (run ops w)) =
      hits (self w) + misses (self w) + counted w (Z.of_nat (countGets ops)).
Proof.
  induction ops as [|o ops IH]; intros w.
  - cbn. rewrite counted_0.
    split; [apply sameConfig_refl|]. split; [now apply accounted_none|]. lia.
  - destruct (exec_accounting o w) as (Hc1 & Ha1 & Hh1 & Hm1 & Hs1).
    destruct (IH (snd (exec o w))) as (Hc2 & Ha2 & Hh2 & Hm2 & Hs2).
    cbn [run]. rewrite countGets_cons, counted_add.
    rewrite (sameConfig_counted _ _ _ Hc1) in Hs2.
    split; [apply (sameConfig_trans _ _ _ Hc1 Hc2)|].
    split; [apply (accounted_trans _ _ _ Hc1 Ha1 Ha2)|]. lia.
Qed.

(** ** What [set] writes *)

Lemma set_writes key v ttl w r w' :
  set key v ttl w = (r, w') ->
  rejectedTtl ttl = false ->
  exists b w1 w2,
    has key w = (Normal b, w1) /\
    (if negb b && (capacity (self w) <=? Map_size (cache (self w1)))
     then exists k : option Key, evictOldest w1 = (Normal k, w2)
     else w2 = w1) /\
    r = Normal tt /\
    match effectiveTtl (self w) ttl with
    | Some d =>
        cache (self w') =
          Map_delete key (cache (self w2)) ++
          [(key, mkEntry v (Some (clock w2 (tick w2) + d)))] /\
        tick w' = S (tick w2)
    | None =>
        cache (self w') =
          Map_delete key (cache (self w2)) ++ [(key, mkEntry v None)] /\
        tick w' = tick w2
    end.
Proof.
  intros Hs Hok.
  destruct (has_spec key w) as (b & w1 & Hhas & Hcfg & _).
  exists b, w1.
  unfold set in Hs. unfold bind at 1 in Hs. rewrite Hhas in Hs.
  unfold size in Hs. unfold bind at 1 2 3 in Hs. unfold this at 1 2, ret at 1 in Hs.
  cbn in Hs.
  destruct Hcfg as (Hcap & _ & Hdt & _). rewrite Hcap, Hdt in Hs.
  assert (exists w2,
    (if negb b && (capacity (self w) <=? Map_size (cache (self w1)))
     then exists k : option Key, evictOldest w1 = (Normal k, w2) else w2 = w1) /\
    when (negb b && (capacity (self w) <=? Map_size (cache (self w1))))
         (evictOldest;;; ret tt) w1 = (Normal tt, w2)) as (w2 & Hw2 & Hev).
  { destruct (negb b && (capacity (self w) <=? Map_size (cache (self w1)))); cbn.
    - destruct (evictOldest_spec w1) as (k & w2 & He & _).
      exists w2. split; [eauto|]. unfold bind, ret. now rewrite He.
    - exists w1. split; reflexivity. }
  exists w2. split; [assumption|]. split; [assumption|].
  unfold bind at 1 in Hs. rewrite Hev in Hs. clear Hev Hw2 Hhas.
  unfold effectiveTtl.
  destruct_world w2. revert Hs Hok. unfold_m. unfold rejectedTtl. cbn.
  destruct ttl as [| |x]; cbn.
  - destruct (defaultTtl (self w)) as [d|]; [destruct (0 <? d)|]; cbn;
      intros [= <- <-] _; cbn; rewrite Map_set_delete; auto.
  - intros [= <- <-] _; cbn; rewrite Map_set_delete; auto.
  - destruct (Number_gt0 x); cbn.
    + destruct (Number_isInteger x); cbn; [|discriminate].
      intros [= <- <-] _; cbn; rewrite Map_set_delete; auto.
    + destruct (defaultTtl (self w)) as [d|]; [destruct (0 <? d)|]; cbn;
        intros [= <- <-] _; cbn; rewrite Map_set_delete; auto.
Qed.

Lemma Map_get_app_present key e m1 m2 :
  Map_get key m1 = Some e -> Map_get key (m1 ++ m2) = Some e.
Proof.
  induction m1 as [|[k e1] m1 IH]; cbn; [discriminate|].
  destruct (Key_eq_dec key k); auto.
Qed.

Lemma Map_get_touch key e m : Map_get key (Map_delete key m ++ [(key, e)]) = Some e.
Proof.
  rewrite Map_get_app_absent
    by (intros Hin; apply Map_keys_delete in Hin; tauto).
  cbn. destruct (Key_eq_dec key key); [reflexivity|congruence].
Qed.

Lemma Map_get_touch_other key k e m :
  k <> key -> Map_get k (Map_delete key m ++ [(key, e)]) = Map_get k m.
Proof.
  intros Hne. destruct (Map_get k m) as [e'|] eqn:Hg.
  - apply Map_get_app_present. now rewrite Map_get_delete_other.
  - rewrite Map_get_app_absent.
    + cbn. destruct (Key_eq_dec k key); [congruence|reflexivity].
    + intros Hin. apply Map_keys_delete in Hin as (Hin & _).
      apply Map_get_None in Hg. tauto.
Qed.

Lemma has_tick key w : tick (snd (has key w)) = (tick w + probeCost key w)%nat.
Proof.
  destruct (has_spec key w) as (b & w1 & -> & _ & _ & _ & _ & Hcase). cbn [snd].
  unfold probeCost. destruct (Map_get key (cache (self w))) as [e|].
  - destruct Hcase as (_ & -> & _). destruct (expiresAt e); lia.
  - destruct Hcase as (_ & ->). lia.
Qed.

(** The world in which [set] reads the clock for the new expiry: the clock is
    the caller's, and only the existence check has read it before. *)
Lemma set_clock_read key w b w1 w2 :
  has key w = (Normal b, w1) ->
  (if negb b && (capacity (self w) <=? Map_size (cache (self w1)))
   then exists k : option Key, evictOldest w1 = (Normal k, w2)
   else w2 = w1) ->
  clock w2 = clock w /\ tick w2 = (tick w + probeCost key w)%nat.
Proof.
  intros Hhas Hev.
  pose proof (has_tick key w) as Ht. rewrite Hhas in Ht. cbn [snd] in Ht.
  destruct (has_spec key w) as (b' & w1' & Hhas' & (_ & _ & _ & _ & Hclk) & _).
  rewrite Hhas in Hhas'. injection Hhas' as <- <-.
  destruct (negb b && (capacity (self w) <=? Map_size (cache (self w1)))).
  - destruct Hev as (k & Hev).
    destruct (evictOldest_spec w1)
      as (k' & w2' & Hev' & (_ & _ & _ & _ & Hclk2) & _ & _ & Ht2 & _).
    rewrite Hev in Hev'. injection Hev' as <- <-. split; congruence.
  - subst w2. auto.
Qed.


(** X7: after a [set] that returned, [get] of the same key gives back the
    value just written unless its TTL has run out by the time [get] reads
    the clock; an entry written without TTL is always given back. *)
Theorem X7_set_then_get_round_trip key v ttl w w' :
  set key v ttl w = (Normal tt, w') ->
  fst (get key w') =
  Normal match effectiveTtl (self w) ttl with
         | Some d =>
             if clock w (tick w + probeCost key w) + d
                  <? clock w (S (tick w + probeCost key w))
             then None else Some v
         | None => Some v
         end.
Proof.
  intros Hs.
  assert (rejectedTtl ttl = false) as Hok.
  { destruct (set_phases _ _ _ _ _ _ Hs) as (b0 & u1 & u2 & _ & _ & Htail).
    destruct (rejectedTtl ttl); [destruct Htail; discriminate|reflexivity]. }
  destruct (set_writes _ _ _ _ _ _ Hs Hok)
    as (b & w1 & w2 & Hhas & Hev & _ & Hw).
  destruct (set_clock_read key w b w1 w2 Hhas Hev)
    as (Hclk & Ht).
  assert (clock w' = clock w) as Hclk'.
  { pose proof (set_steady key v ttl w) as Hc. rewrite Hs in Hc.
    destruct Hc as ((_ & _ & _ & _ & Hc) & _). exact Hc. }
  rewrite get_result. unfold expiredAt.
  destruct (effectiveTtl (self w) ttl) as [d|]; destruct Hw as (-> & ->);
    rewrite Map_get_touch; cbn; rewrite ?Hclk', ?Hclk, ?Ht; reflexivity.
Qed.

(** ** [set] and the capacity check *)


Lemma has_absent key w :
  Map_get key (cache (self w)) = None -> has key w = (Normal false, w).
Proof.
  intros Hg.
  destruct (has_spec key w) as (b & w1 & Hhas & _ & _ & _ & _ & Hcase).
  rewrite Hg in Hcase. now destruct Hcase as (-> & ->).
Qed.


(** X5: a [set] of an unbound key while the store is below capacity evicts
    nothing: the new entry is appended after the existing ones, which keep
    their places; when the TTL is rejected the world is as before. *)
Theorem X5_set_of_a_new_key_with_room_appends key v ttl w r w' :
  Map_get key (cache (self w)) = None ->
  Map_size (cache (self w)) < capacity (self w) ->
  set key v ttl w = (r, w') ->
  sinkCalls w' = sinkCalls w /\
  evictions (self w') = evictions (self w) /\
  if rejectedTtl ttl then w' = w
  else exists exp, cache (self w') = cache (self w) ++ [(key, mkEntry v exp)].
Proof.
  intros Hg Hroom Hs.
  destruct (set_phases _ _ _ _ _ _ Hs) as (b & w1 & w2 & Hhas & Hev & Htail).
  rewrite (has_absent key w Hg) in Hhas. injection Hhas as <- <-.
  apply Z.leb_gt in Hroom. rewrite Hroom in Hev. cbn in Hev. subst w2.
  destruct (rejectedTtl ttl).
  - destruct Htail as (_ & ->). auto.
  - destruct Htail as (exp & _ & Hc' & _ & _ & _ & He' & Hs' & _).
    rewrite Hs', He', Hc'.
    rewrite Map_delete_absent by (now apply Map_get_None). eauto.
Qed.

(** X8: recency protects. After a [get] that hits [key], a [set] of a new key
    on the full store (capacity at least two) evicts some other entry: [key]
    is still bound to its entry afterwards. *)
Theorem X8_a_hit_protects_the_key_from_the_next_eviction key key' v ttl w e :
  bounded w ->
  Map_get key (cache (self w)) = Some e ->
  expiredAt (clock w (tick w)) e = false ->
  Map_get key' (cache (self w)) = None ->
  Map_size (cache (self w)) = capacity (self w) ->
  2 <= capacity (self w) ->
  Map_get key (cache (self (snd (set key' v ttl (snd (get key w)))))) = Some e.
Proof.
  intros (Hok & _ & _) Hg Hlive Hg' Hfull Hcap2.
  assert (key' <> key) as Hne by congruence.
  assert (key <> key') as Hne' by congruence.
  destruct (get_spec key w) as (r & w1 & -> & Hcfg & Hcase). cbn [snd].
  rewrite Hg, Hlive in Hcase. destruct Hcase as (Hc1 & _).
  assert (In key (Map_keys (cache (self w)))) as Hin.
  { destruct (in_dec Key_eq_dec key (Map_keys (cache (self w)))) as [|Hn];
      [assumption|]. apply Map_get_None in Hn. congruence. }
  pose proof (Map_delete_length_present key _ Hok Hin) as Hlen.
  assert (capacity (self w1) = capacity (self w)) as Hcap1 by apply Hcfg.
  destruct (Map_delete key (cache (self w))) as [|[k0 e0] rest] eqn:Hdel.
  { unfold Map_size in Hfull. cbn in Hlen. lia. }
  assert (k0 <> key) as Hk0.
  { intros ->.
    assert (In key (Map_keys (Map_delete key (cache (self w))))) as Habs
      by (rewrite Hdel; now left).
    apply Map_keys_delete in Habs. tauto. }
  cbn [app] in Hc1.
  assert (Map_get key' (cache (self w1)) = None) as Hg1.
  { rewrite Hc1. change ((k0, e0) :: rest ++ [(key, e)])
      with (((k0, e0) :: rest) ++ [(key, e)]).
    rewrite <- Hdel, Map_get_touch_other by assumption. assumption. }
  assert (capacity (self w1) <= Map_size (cache (self w1))) as Hge.
  { rewrite Hcap1, <- Hfull, Hc1. unfold Map_size. cbn [List.length].
    rewrite length_app. cbn in *. lia. }
  destruct (set_evicts_oldest key' v ttl w1 k0 e0 (rest ++ [(key, e)]) Hc1 Hg1 Hge)
    as (_ & _ & _ & Hres).
  assert (Map_get key (Map_delete k0 ((k0, e0) :: rest ++ [(key, e)])) = Some e)
    as Hkept.
  { rewrite Map_get_delete_other by congruence.
    change ((k0, e0) :: rest ++ [(key, e)]) with (((k0, e0) :: rest) ++ [(key, e)]).
    rewrite <- Hdel. apply Map_get_touch. }
  destruct (rejectedTtl ttl).
  - now rewrite Hres.
  - destruct Hres as (exp & ->).
    rewrite Map_get_touch_other by assumption. assumption.
Qed.

(** ** Statistics *)

(** X9: over any sequence of calls the hit and miss counters together grow
    by exactly the number of [get] calls when statistics are tracked (every
    [get] is a hit or a miss, nothing else is), and not at all otherwise. *)
Theorem X9_hits_plus_misses_count_the_gets (ops : list (Op Key Value)) w :
  hits (self (run ops w)) + misses (self (run ops w)) =
  hits (self w) + misses (self w) + counted w (Z.of_nat (countGets ops)).
Proof. apply run_accounting. Qed.

(** X10: with statistics tracked and a callback installed, over any sequence
    of [set], [get], [peek], [has], [delete], [clear] and [purgeExpired]
    calls the eviction counter grows by exactly the number of calls the
    callback receives, and the record of those calls only grows. *)
Theorem X10_evictions_counter_matches_callback_calls
    (ops : list (Op Key Value)) w f :
  trackStats (self w) = true ->
  onEvict (events (self w)) = Some f ->
  (exists ps, sinkCalls (run ops w) = sinkCalls w ++ ps) /\
  evictions (self (run ops w)) - evictions (self w) =
    Z.of_nat (List.length (sinkCalls (run ops w))) -
    Z.of_nat (List.length (sinkCalls w)).
Proof.
  intros Htr Hsink.
  destruct (run_accounting ops w) as (_ & (ps & Hs & He) & _).
  unfold delivered in Hs. unfold counted in He. rewrite Hsink in Hs.
  rewrite Htr in He. split; [eauto|].
  rewrite Hs, He, length_app. lia.
Qed.

(** X11: no sequence of [set], [get], [peek], [has], [delete], [clear] and
    [purgeExpired] calls lowers a counter, and with statistics switched off
    none of these calls changes one. ([resetStats] is the one method that
    lowers counters; it is not among the calls of a sequence here.) *)
Theorem X11_counters_never_decrease_and_freeze_when_disabled
    (ops : list (Op Key Value)) w :
  hits (self w) <= hits (self (run ops w)) /\
  misses (self w) <= misses (self (run ops w)) /\
  evictions (self w) <= evictions (self (run ops w)) /\
  if trackStats (self w) then True
  else
    hits (self (run ops w)) = hits (self w) /\
    misses (self (run ops w)) = misses (self w) /\
    evictions (self (run ops w)) = evictions (self w).
Proof.
  destruct (run_accounting ops w) as (_ & (ps & _ & He) & Hh & Hm & Hsum).
  pose proof (counted_nonneg w (Z.of_nat (List.length ps)) ltac:(lia)).
  split; [assumption|]. split; [assumption|]. split; [lia|].
  unfold counted in *. destruct (trackStats (self w)); [exact I|]. lia.
Qed.

Lemma stats_reads w :
  stats w =
  (Normal (mkStats (hits (self w)) (misses (self w)) (evictions (self w))), w).
Proof. reflexivity. Qed.

(** X12: a cache constructed without [trackStats] (or with it [false])
    reports all-zero statistics after any sequence of calls, and
    [resetStats] does nothing to it. *)
Theorem X12_untracked_statistics_stay_zero
    capacity0 options (c : LruCache Key Value) clk (ops : list (Op Key Value)) :
  constructor capacity0 options = Normal c ->
  options_trackStats options = false ->
  stats (run ops (fresh c clk)) = (Normal (mkStats 0 0 0), run ops (fresh c clk)) /\
  resetStats (run ops (fresh c clk)) = (Normal tt, run ops (fresh c clk)).
Proof.
  intros Hnew Hoff.
  assert (trackStats c = false /\ hits c = 0 /\ misses c = 0 /\ evictions c = 0)
    as (Htr & Hh & Hm & He).
  { revert Hnew. unfold constructor.
    repeat match goal with
           | |- context [if ?b then _ else _] => destruct b; [discriminate|]
           end.
    intros [= <-]. cbn. auto. }
  pose proof (X := run_accounting ops (fresh c clk)).
  destruct X as ((_ & _ & _ & Htr' & _) & (ps & _ & He') & Hh' & Hm' & Hsum).
  unfold counted in *. cbn [self fresh] in *. rewrite Htr in *.
  rewrite stats_reads. unfold resetStats, bind, this, when. rewrite Htr'.
  split; [|reflexivity]. do 2 f_equal. f_equal; lia.
Qed.

(** X13: [resetStats] on a tracking cache starts a fresh count and touches
    nothing else: after it and any sequence of [set], [get], [peek], [has],
    [delete], [clear] and [purgeExpired] calls, hits plus misses is the
    number of [get] calls made since, and, when a callback is installed, the
    eviction counter is the number of calls the callback has received since
    (without a callback it receives none). *)
Theorem X13_resetStats_restarts_the_count (ops : list (Op Key Value)) w :
  trackStats (self w) = true ->
  let w1 := snd (resetStats w) in
  cache (self w1) = cache (self w) /\
  sinkCalls w1 = sinkCalls w /\
  tick w1 = tick w /\
  stats w1 = (Normal (mkStats 0 0 0), w1) /\
  hits (self (run ops w1)) + misses (self (run ops w1)) =
    Z.of_nat (countGets ops) /\
  match onEvict (events (self w)) with
  | Some _ =>
      evictions (self (run ops w1)) =
        Z.of_nat (List.length (sinkCalls (run ops w1))) -
        Z.of_nat (List.length (sinkCalls w))
  | None => sinkCalls (run ops w1) = sinkCalls w
  end.
Proof.
  intros Htr w1.
  assert (w1 = mkWorld (zero_evictions (zero_misses (zero_hits (self w))))
                       (clock w) (tick w) (sinkCalls w) (console w)) as Hw1.
  { subst w1. unfold resetStats, bind, this, when, update. now rewrite Htr. }
  destruct (run_accounting ops w1) as (_ & (ps & Hs & He) & _ & _ & Hsum).
  rewrite Hw1 in *. cbn in *.
  unfold counted, delivered in *. cbn in *. rewrite Htr in *.
  repeat (split; [reflexivity || lia|]).
  destruct (onEvict (events (self w))).
  - rewrite Hs, He, length_app. lia.
  - now rewrite Hs, app_nil_r.
Qed.

(** ** Snapshots and accessors *)

Lemma entries_combine m :
  map (fun '(key, entry) => (key, value entry)) m =
  combine (Map_keys m) (map (fun entry : CacheEntry Value => value entry) (Map_values m)).
Proof.
  induction m as [|[k e] m IH]; cbn; [reflexivity|]. now rewrite IH.
Qed.

(** X14: the snapshot accessors read the same store and change nothing:
    [entries] pairs [keys] with [values] position by position,
    [entriesNewestFirst] is [entries] reversed, [size] is their common
    length and [isEmpty] holds exactly when that length is zero. *)
Theorem X14_snapshots_are_consistent_views w :
  exists (ks : list Key) (vs : list Value),
    keys w = (Normal ks, w) /\
    values w = (Normal vs, w) /\
    List.length ks = List.length vs /\
    entries w = (Normal (combine ks vs), w) /\
    entriesNewestFirst w = (Normal (rev (combine ks vs)), w) /\
    size w = (Normal (Z.of_nat (List.length ks)), w) /\
    isEmpty w = (Normal (Nat.eqb (List.length ks) 0), w).
Proof.
  exists (Map_keys (cache (self w))),
         (map (fun entry => value entry) (Map_values (cache (self w)))).
  unfold keys, values, entries, entriesNewestFirst, size, isEmpty, bind, this, ret.
  cbn [fst snd]. rewrite map_rev, entries_combine.
  unfold Map_keys, Map_values, Map_size. rewrite !length_map.
  repeat split. do 2 f_equal.
  destruct (cache (self w)); reflexivity.
Qed.

(** ** What holds in every reachable state *)

(** X15: in every state reached from a constructed cache, [keys] lists no
    key twice, [getCapacity] still returns the capacity given to the
    constructor, and the default TTL, the statistics switch and the callback
    are the ones fixed at construction. *)
Theorem X15_reachable_states_keep_keys_distinct_and_config_fixed
    capacity0 options (c : LruCache Key Value) clk (ops : list (Op Key Value)) :
  constructor capacity0 options = Normal c ->
  let w := run ops (fresh c clk) in
  NoDup (Map_keys (cache (self w))) /\
  keys w = (Normal (Map_keys (cache (self w))), w) /\
  getCapacity w = (Normal (Number_toZ capacity0), w) /\
  defaultTtl (self w) = defaultTtl c /\
  trackStats (self w) = options_trackStats options /\
  onEvict (events (self w)) =
    match options with Some o => opt_onEvict o | None => None end.
Proof.
  intros Hnew w.
  destruct (constructor_bounded _ _ _ clk Hnew) as (Hcap & _ & Hb0).
  destruct (run_bounded ops _ Hb0) as ((Hok & _) & (Hc & Hev & Hdt & Htr & _)).
  fold w in Hok, Hc, Hev, Hdt, Htr. cbn [self fresh] in *.
  split; [exact Hok|]. split; [reflexivity|].
  unfold getCapacity, bind, this, ret. rewrite Hc, Hcap, Hev, Hdt, Htr.
  split; [reflexivity|]. split; [reflexivity|].
  revert Hnew. unfold constructor.
  repeat match goal with
         | |- context [if ?b then _ else _] => destruct b; [discriminate|]
         end.
  intros [= <-]. cbn. auto.
Qed.

(** ** What a purge leaves behind *)

Lemma Map_get_Some_In key m e : Map_get key m = Some e -> In (key, e) m.
Proof.
  induction m as [|[k e'] m IH]; cbn; [discriminate|].
  destruct (Key_eq_dec key k) as [->|Hne]; intros Hg.
  - left. congruence.
  - right. auto.
Qed.

Lemma In_Map_get key e m :
  Map_ok m -> In (key, e) m -> Map_get key m = Some e.
Proof.
  unfold Map_ok. induction m as [|[k e'] m IH]; cbn; [tauto|].
  intros Hnd [Heq|Hin].
  - injection Heq as -> ->. destruct (Key_eq_dec key key); [reflexivity|congruence].
  - apply NoDup_cons_iff in Hnd as (Hk & Hnd).
    destruct (Key_eq_dec key k) as [->|Hne]; [|auto].
    exfalso. apply Hk. change k with (fst (k, e)). now apply in_map.
Qed.

Lemma select_incl b m :
  forall verdicts p, In p (select b m verdicts) -> In p m.
Proof.
  induction m as [|q m IH]; intros [|v vs] p; cbn; try tauto.
  destruct (Bool.eqb v b); cbn; intros Hin; [destruct Hin|]; eauto.
Qed.

Lemma select_ok b m : forall verdicts, Map_ok m -> Map_ok (select b m verdicts).
Proof.
  unfold Map_ok, Map_keys.
  induction m as [|[k e] m IH]; intros [|v vs] Hnd; cbn [select map];
    try apply NoDup_nil.
  cbn [map fst] in Hnd. apply NoDup_cons_iff in Hnd as (Hk & Hnd).
  destruct (Bool.eqb v b); cbn [map fst]; [|now apply IH].
  constructor; [|now apply IH]. intros Hin. apply Hk.
  apply in_map_iff in Hin as (p & Hp & Hin). apply select_incl in Hin.
  rewrite <- Hp. now apply in_map.
Qed.

Lemma select_false_keeps_unexpiring clk m :
  forall n p,
    In p m -> expiresAt (snd p) = None ->
    In p (select false m (expiredWhenChecked clk n m)).
Proof.
  induction m as [|[k e] m IH]; intros n p; cbn [expiredWhenChecked In]; [tauto|].
  intros [<-|Hin] Hx.
  - cbn in Hx. rewrite Hx. cbn. now left.
  - destruct (expiresAt e) as [t|]; [destruct (t <? clk n)|];
      cbn [select Bool.eqb]; try right; auto.
Qed.

Lemma deleteAndNotifyIfKeyExpired_idle key w :
  match Map_get key (cache (self w)) with
  | Some e => expiresAt e = None
  | None => True
  end ->
  deleteAndNotifyIfKeyExpired key w = (Normal false, w).
Proof.
  destruct_world w. unfold_m. cbn.
  destruct (Map_get key m) as [[v [t|]]|]; cbn; [discriminate| |]; reflexivity.
Qed.

Lemma purgeLoop_idle w :
  (forall k e, Map_get k (cache (self w)) = Some e -> expiresAt e = None) ->
  forall ks acc, purgeLoop ks acc w = (Normal acc, w).
Proof.
  intros Hall. induction ks as [|key ks IH]; intros acc; cbn [purgeLoop].
  - reflexivity.
  - unfold bind. rewrite deleteAndNotifyIfKeyExpired_idle; [apply IH|].
    destruct (Map_get key (cache (self w))) as [e|] eqn:Hg; [eauto|exact I].
Qed.

(** X16: [purgeExpired] never alters what it keeps: a key bound afterwards
    is bound to the entry it had before, an entry without expiry is always
    kept, and on a store where no entry carries an expiry the call returns 0
    without reading the clock or changing anything. *)
Theorem X16_purgeExpired_keeps_the_rest_intact w r w' :
  Map_ok (cache (self w)) ->
  purgeExpired w = (r, w') ->
  (forall k e,
     Map_get k (cache (self w')) = Some e ->
     Map_get k (cache (self w)) = Some e) /\
  (forall k e,
     Map_get k (cache (self w)) = Some e -> expiresAt e = None ->
     Map_get k (cache (self w')) = Some e) /\
  ((forall k e, Map_get k (cache (self w)) = Some e -> expiresAt e = None) ->
   r = Normal 0 /\ w' = w).
Proof.
  intros Hok Hp.
  destruct (purgeLoop_spec (cache (self w)) [] w 0 Hok eq_refl)
    as (w1 & Hloop & Hc & _).
  unfold purgeExpired, keys, bind, this, ret in Hp. cbn [fst snd] in Hp.
  cbn [app] in Hc. split; [|split].
  - rewrite Hloop in Hp. injection Hp as _ <-. rewrite Hc.
    intros k e Hg. apply In_Map_get; [assumption|].
    apply Map_get_Some_In in Hg. eapply select_incl; eassumption.
  - rewrite Hloop in Hp. injection Hp as _ <-. rewrite Hc.
    intros k e Hg Hx. apply In_Map_get; [now apply select_ok|].
    apply (select_false_keeps_unexpiring _ _ _ (k, e));
      [now apply Map_get_Some_In|assumption].
  - intros Hall. rewrite (purgeLoop_idle w Hall) in Hp.
    injection Hp as <- <-. auto.
Qed.

(** ** Removal is final *)

(** X17: after [delete(key)] the key is gone for every read path: [has]
    answers [false], [get] and [peek] return nothing, and none of them reads
    the clock or calls the callback; the same holds for every key after
    [clear], which leaves an empty store; and a [delete] that follows a
    successful [set] of the key returns [true]. *)
Theorem X17_deleted_and_cleared_keys_are_gone key w :
  (let w1 := snd (delete key w) in
   has key w1 = (Normal false, w1) /\
   peek key w1 = (Normal None, w1) /\
   fst (get key w1) = Normal None) /\
  (let w1 := snd (clear w) in
   size w1 = (Normal 0, w1) /\
   has key w1 = (Normal false, w1) /\
   peek key w1 = (Normal None, w1) /\
   fst (get key w1) = Normal None) /\
  (forall v ttl w1,
     set key v ttl w = (Normal tt, w1) -> fst (delete key w1) = Normal true).
Proof.
  assert (forall w1, Map_get key (cache (self w1)) = None ->
            has key w1 = (Normal false, w1) /\
            peek key w1 = (Normal None, w1) /\
            fst (get key w1) = Normal None) as Hgone.
  { intros w1 Hg. split; [now apply has_absent|]. split.
    - unfold peek, bind. rewrite deleteAndNotifyIfKeyExpired_idle
        by (now rewrite Hg). unfold this, ret. now rewrite Hg.
    - rewrite get_result. now rewrite Hg. }
  split; [|split].
  - apply Hgone. unfold delete, bind, this, update, ret. cbn.
    apply Map_get_delete_same.
  - split; [reflexivity|]. apply Hgone. reflexivity.
  - intros v ttl w1 Hs.
    destruct (set_phases _ _ _ _ _ _ Hs) as (b0 & u1 & u2 & _ & _ & Htail).
    destruct (rejectedTtl ttl); [destruct Htail; discriminate|].
    destruct Htail as (exp & _ & Hc & _).
    unfold delete, bind, this, update, ret, Map_has. cbn.
    now rewrite Hc, Map_get_touch.
Qed.

(** ** The console *)

Lemma thrownBy_app (f : Callback Key Value) history ps qs :
  thrownBy f history (ps ++ qs) =
  thrownBy f history ps ++ thrownBy f (history ++ ps) qs.
Proof.
  revert history. induction ps as [|[k v] ps IH]; intros history; cbn.
  - now rewrite app_nil_r.
  - destruct (f history k v); rewrite IH, <- app_assoc; reflexivity.
Qed.

Lemma logged_refl w : logged w w.
Proof.
  split; [reflexivity|]. exists []. rewrite app_nil_r.
  destruct (onEvict _); cbn; now rewrite app_nil_r.
Qed.

Lemma logged_trans w1 w2 w3 : logged w1 w2 -> logged w2 w3 -> logged w1 w3.
Proof.
  intros (Hev & ps & Hs & Hc) (Hev' & qs & Hs' & Hc').
  rewrite Hev in Hc'. rewrite Hs in Hs', Hc'. rewrite Hc in Hc'.
  split; [congruence|]. exists (ps ++ qs).
  split; [now rewrite Hs', app_assoc|]. rewrite Hc'.
  destruct (onEvict (events (self w1))) as [f|].
  - now rewrite thrownBy_app, app_assoc.
  - now rewrite !app_nil_r.
Qed.

Lemma keeps_ret {A} (a : A) : keeps (@ret Key Value A a).
Proof. intros w. apply logged_refl. Qed.

Lemma keeps_throw {A} err : keeps (@throw Key Value A err).
Proof. intros w. apply logged_refl. Qed.

Lemma keeps_this : keeps (@this Key Value).
Proof. intros w. apply logged_refl. Qed.

Lemma keeps_Date_now : keeps (@Date_now Key Value).
Proof.
  intros w. split; [reflexivity|]. exists []. cbn. rewrite app_nil_r.
  destruct (onEvict _); now rewrite app_nil_r.
Qed.

Lemma keeps_update (f : LruCache Key Value -> LruCache Key Value) :
  (forall c, events (f c) = events c) -> keeps (update f).
Proof.
  intros Hf w. split; [apply Hf|]. exists []. cbn. rewrite app_nil_r.
  destruct (onEvict _); now rewrite app_nil_r.
Qed.

Lemma keeps_bind {A B} (c : M Key Value A) (k : A -> M Key Value B) :
  keeps c -> (forall a, keeps (k a)) -> keeps (bind c k).
Proof.
  intros Hc Hk w. unfold bind. specialize (Hc w).
  destruct (c w) as [[a|err] w1]; cbn [snd] in *; [|assumption].
  apply (logged_trans _ _ _ Hc). apply Hk.
Qed.

Lemma keeps_when b (c : M Key Value unit) : keeps c -> keeps (when b c).
Proof. intros Hc. destruct b; [assumption|apply keeps_ret]. Qed.

Lemma keeps_emitEviction key (v : Value) : keeps (emitEviction key v).
Proof.
  intros w. destruct_world w. unfold_m. unfold logged. cbn.
  destruct sink as [f|]; cbn.
  - destruct (f sc key v) eqn:Hf; cbn; (split; [reflexivity|]);
      exists [(key, v)]; cbn; rewrite Hf; rewrite ?app_nil_r; auto.
  - split; [reflexivity|]. exists []. now rewrite !app_nil_r.
Qed.

Ltac keeps_step :=
  match goal with
  | |- keeps (ret _) => apply keeps_ret
  | |- keeps (throw _) => apply keeps_throw
  | |- keeps this => apply keeps_this
  | |- keeps Date_now => apply keeps_Date_now
  | |- keeps (emitEviction _ _) => apply keeps_emitEviction
  | |- keeps (update _) => apply keeps_update; intros ?; reflexivity
  | |- keeps (when _ _) => apply keeps_when
  | |- keeps (bind _ _) => apply keeps_bind; [|intros ?]
  | |- keeps (match ?x with _ => _ end) => destruct x
  | |- keeps (if ?x then _ else _) => destruct x
  end.

Lemma keeps_deleteAndNotifyIfKeyExpired key :
  keeps (@deleteAndNotifyIfKeyExpired Key Value _ key).
Proof. unfold deleteAndNotifyIfKeyExpired, isExpired. repeat keeps_step. Qed.

Lemma keeps_setMostRecentlyUsed key (v : Value) exp :
  keeps (setMostRecentlyUsed key v exp).
Proof. unfold setMostRecentlyUsed. repeat keeps_step. Qed.

Lemma keeps_evictOldest : keeps (@evictOldest Key Value _).
Proof. unfold evictOldest. repeat keeps_step. Qed.

Lemma keeps_purgeLoop ks : forall acc, keeps (@purgeLoop Key Value _ ks acc).
Proof.
  induction ks as [|key ks IH]; intros acc; cbn [purgeLoop].
  - apply keeps_ret.
  - apply keeps_bind; [apply keeps_deleteAndNotifyIfKeyExpired|]. intros b. apply IH.
Qed.

Lemma keeps_exec (o : Op Key Value) : keeps (exec o).
Proof.
  destruct o as [key v ttl|key|key|key|key| |]; cbn [exec];
    (apply keeps_bind; [|intros ?; apply keeps_ret]).
  - unfold set, has, size.
    repeat first [ apply keeps_deleteAndNotifyIfKeyExpired
                 | apply keeps_evictOldest
                 | apply keeps_setMostRecentlyUsed
                 | keeps_step ].
  - unfold get.
    repeat first [ apply keeps_deleteAndNotifyIfKeyExpired
                 | apply keeps_setMostRecentlyUsed
                 | keeps_step ].
  - unfold peek.
    repeat first [ apply keeps_deleteAndNotifyIfKeyExpired | keeps_step ].
  - unfold has.
    repeat first [ apply keeps_deleteAndNotifyIfKeyExpired | keeps_step ].
  - unfold delete. repeat keeps_step.
  - unfold clear. keeps_step.
  - unfold purgeExpired, keys.
    repeat first [ apply keeps_purgeLoop | keeps_step ].
Qed.

Lemma thrownBy_quiet (f : Callback Key Value) :
  (forall history k v, f history k v = None) ->
  forall ps history, thrownBy f history ps = [].
Proof.
  intros Hq. induction ps as [|[k v] ps IH]; intros history; cbn;
    [reflexivity|]. now rewrite Hq.
Qed.

(** X18: the console receives exactly the errors the callback throws, in
    the order of the calls, over any sequence of cache calls; so with no
    callback installed, or one that never throws, the cache never writes to
    the console. *)
Theorem X18_console_logs_exactly_the_callback_failures
    (ops : list (Op Key Value)) w :
  (exists ps,
     sinkCalls (run ops w) = sinkCalls w ++ ps /\
     console (run ops w) =
       console w ++
       match onEvict (events (self w)) with
       | Some f => thrownBy f (sinkCalls w) ps
       | None => []
       end) /\
  match onEvict (events (self w)) with
  | Some f =>
      (forall history k v, f history k v = None) ->
      console (run ops w) = console w
  | None => console (run ops w) = console w
  end.
Proof.
  assert (logged w (run ops w)) as (_ & ps & Hs & Hc).
  { revert w. induction ops as [|o ops IH]; intros w; cbn [run].
    - apply logged_refl.
    - apply (logged_trans _ _ _ (keeps_exec o w)). apply IH. }
  split; [eauto|]. rewrite Hc.
  destruct (onEvict (events (self w))) as [f|].
  - intros Hq. now rewrite thrownBy_quiet, app_nil_r.
  - now rewrite app_nil_r.
Qed.

End Theory.

(** * The properties at work on a concrete cache *)

Module Witness.
Import Example.
Local Open Scope string_scope.

(** A cache of capacity 2 as the constructor builds it: the size stays
    within 2 along a session, and once ["a"] and ["b"] have filled the store
    a [set] of ["c"] evicts ["a"], the least recently used. *)
Lemma C1_witness :
  Forall (fun w => Map_size (cache (self w)) <= 2)
         (trace [OpSet "a" 1 Undefined; OpSet "b" 2 Undefined;
                 OpGet "a"; OpSet "c" 3 (Num (Number_ofZ 5))]
                (fresh fresh2 clk)) /\
  let w := run [OpSet "a" 1 Undefined; OpSet "b" 2 Undefined]
               (fresh fresh2 clk) in
  sinkCalls (snd (set "c" 3 Undefined w)) = [("a", 1)] /\
  exists exp,
    cache (self (snd (set "c" 3 Undefined w))) =
      [("b", mkEntry 2 None); ("c", mkEntry 3 exp)].
Proof.
  destruct (C1_size_bounded_and_lru_entry_evicted
              (Number_ofZ 2) (Some options2) fresh2 clk eq_refl)
    as (_ & Hreach & Hevict).
  split.
  - exact (proj1 (Hreach _)).
  - exact (Hevict
             (run [OpSet "a" 1 Undefined; OpSet "b" 2 Undefined]
                  (fresh fresh2 clk))
             "c" 3 Undefined "a" (mkEntry 1 None) [("b", mkEntry 2 None)]
             (proj1 (proj2 (Hreach _))) eq_refl eq_refl eq_refl).
Defined.

(** C2 fails on the code: a per-item TTL of 0, of -5 or of [NaN] is
    provided, is not [null] and is not a positive integer, yet [set] returns
    normally and stores the entry, here without expiry since no default TTL
    is configured. The message of the throw in [set] and the check the
    constructor makes on its own TTL both call for a failure. *)
Theorem C2_set_accepts_a_ttl_that_is_not_positive :
  let w := w0 3 quiet bc in
  (notPositiveInteger (Num (Number_ofZ 0)) = true /\
   fst (set "d" 4 (Num (Number_ofZ 0)) w) = Normal tt /\
   Map_get "d" (cache (self (snd (set "d" 4 (Num (Number_ofZ 0)) w)))) =
     Some (mkEntry 4 None)) /\
  (notPositiveInteger (Num (Number_ofZ (-5))) = true /\
   fst (set "d" 4 (Num (Number_ofZ (-5))) w) = Normal tt /\
   Map_get "d" (cache (self (snd (set "d" 4 (Num (Number_ofZ (-5))) w)))) =
     Some (mkEntry 4 None)) /\
  (notPositiveInteger (Num NaN) = true /\
   fst (set "d" 4 (Num NaN) w) = Normal tt /\
   Map_get "d" (cache (self (snd (set "d" 4 (Num NaN) w)))) =
     Some (mkEntry 4 None)).
Proof. vm_compute. repeat split. Qed.

(** C3 fails on the code: on a full cache, [set] with a TTL of 1.5 evicts the
    oldest entry, notifies the callback and counts the eviction, and only
    then throws; the store has lost ["a"] and gained nothing. *)
Theorem C3_set_throws_after_evicting :
  let w := w0 1 quiet [("a", eb)] in
  let res := set "b" 7 (Num (Finite (3 # 2))) w in
  fst res = Throw (Error "Item TTL must be a positive integer if specified") /\
  cache (self w) = [("a", eb)] /\
  cache (self (snd res)) = [] /\
  sinkCalls w = [] /\
  sinkCalls (snd res) = [("a", 2)] /\
  evictions (self w) = 0 /\
  evictions (self (snd res)) = 1.
Proof. vm_compute. repeat split. Qed.

(** ["a"] is expired at time 100: a miss. *)
Lemma C4_witness :
  fst (get "a" (w0 3 quiet abc)) = Normal None /\
  misses (self (snd (get "a" (w0 3 quiet abc)))) = 1 /\
  hits (self (snd (get "a" (w0 3 quiet abc)))) = 0.
Proof.
  exact (C4_get_hit_or_miss "a" (w0 3 quiet abc)
           (fst (get "a" (w0 3 quiet abc))) (snd (get "a" (w0 3 quiet abc)))
           eq_refl).
Defined.

(** [peek] on the expired ["a"]: removed and notified, no miss counted. *)
Lemma C5_witness :
  hits (self (snd (peek "a" (w0 3 quiet abc)))) = 0 /\
  misses (self (snd (peek "a" (w0 3 quiet abc)))) = 0 /\
  fst (peek "a" (w0 3 quiet abc)) = Normal None /\
  cache (self (snd (peek "a" (w0 3 quiet abc)))) = [("b", eb); ("c", ec)] /\
  sinkCalls (snd (peek "a" (w0 3 quiet abc))) = [("a", 1)] /\
  evictions (self (snd (peek "a" (w0 3 quiet abc)))) = 1.
Proof.
  exact (C5_peek_frame_and_cleanup "a" (w0 3 quiet abc)
           (fst (peek "a" (w0 3 quiet abc))) (snd (peek "a" (w0 3 quiet abc)))
           eq_refl).
Defined.

Lemma abc_ok : Map_ok abc.
Proof.
  unfold Map_ok. cbn. repeat constructor; cbn; intuition discriminate.
Defined.

(** The sweep removes ["a"] and nothing else. *)
Lemma C6_witness :
  fst (purgeExpired (w0 3 faulty abc)) = Normal 1 /\
  cache (self (snd (purgeExpired (w0 3 faulty abc)))) = [("b", eb); ("c", ec)].
Proof.
  pose proof (C6_purgeExpired_removes_exactly_the_expired
                (w0 3 faulty abc)
                (fst (purgeExpired (w0 3 faulty abc)))
                (snd (purgeExpired (w0 3 faulty abc)))
                abc_ok eq_refl) as (Hr & Hc & _).
  exact (conj Hr Hc).
Defined.

(** The sweep tells the callback about ["a"], once. *)
Lemma C7_witness :
  sinkCalls (snd (purgeExpired (w0 3 faulty abc))) = [("a", 1)].
Proof.
  destruct (@C7_who_notifies_the_callback K V _) as (_ & _ & Hev).
  destruct (Hev (w0 3 faulty abc) faulty eq_refl) as (_ & _ & _ & Hpurge).
  exact (Hpurge abc_ok).
Defined.

(** Setting the expired ["a"] again: the old entry is reported, the new one
    goes last. *)
Lemma C9_witness :
  sinkCalls (snd (set "a" 9 Null (w0 3 quiet abc))) = [("a", 1)] /\
  evictions (self (snd (set "a" 9 Null (w0 3 quiet abc)))) = 1 /\
  exists exp,
    cache (self (snd (set "a" 9 Null (w0 3 quiet abc)))) =
      [("b", eb); ("c", ec); ("a", mkEntry 9 exp)].
Proof.
  exact (C9_set_cleans_its_own_expired_key "a" 9 Null (w0 3 quiet abc) ea
           (snd (set "a" 9 Null (w0 3 quiet abc)))
           ltac:(vm_compute; discriminate) eq_refl eq_refl eq_refl).
Defined.

(** C9 as worded fails for a call that does not return: ["a"] is bound to
    an expired entry, [set("a", 9, 1.5)] throws, and no new entry for ["a"]
    is at the most-recently-used end: the key is no longer bound. *)
Lemma C9_counterexample_rejected_ttl_inserts_nothing :
  Map_get "a" (cache (self (w0 3 quiet abc))) = Some ea /\
  expiredAt (clock (w0 3 quiet abc) (tick (w0 3 quiet abc))) ea = true /\
  ~ (exists exp,
       cache (self (snd (set "a" 9 (Num (Finite (3 # 2))) (w0 3 quiet abc)))) =
         [("b", eb); ("c", ec); ("a", mkEntry 9 exp)]).
Proof.
  split; [reflexivity|]. split; [reflexivity|].
  intros (exp & Hc). vm_compute in Hc. discriminate Hc.
Qed.

(** Deleting the expired ["a"]: [true], and the callback hears nothing. *)
Lemma C10_witness :
  fst (delete "a" (w0 3 quiet abc)) = Normal true /\
  sinkCalls (snd (delete "a" (w0 3 quiet abc))) = [] /\
  evictions (self (snd (delete "a" (w0 3 quiet abc)))) = 0.
Proof.
  pose proof (C10_delete_ignores_expiry "a" (w0 3 quiet abc)
                (fst (delete "a" (w0 3 quiet abc)))
                (snd (delete "a" (w0 3 quiet abc))) eq_refl)
    as (_ & Hs & _ & _ & _ & He & Hr & _).
  exact (conj Hr (conj Hs He)).
Defined.

End Witness.

(** * The further properties at work *)

Module MoreWitness.
Import Example.
Local Open Scope string_scope.

Lemma bc_ok : Map_ok bc.
Proof.
  unfold Map_ok. cbn. repeat constructor; cbn; intuition discriminate.
Defined.

Lemma bc_bounded : bounded (w0 2 quiet bc).
Proof.
  split; [exact bc_ok|]. cbn. split; [reflexivity|discriminate].
Defined.

(** ["c"] expires at 500 and the clock reads 100: still there. *)
Lemma X2_witness :
  fst (has "c" (w0 2 quiet bc)) = Normal true /\
  cache (self (snd (has "c" (w0 2 quiet bc)))) = bc.
Proof.
  pose proof (X2_has_is_an_expiry_aware_probe "c" (w0 2 quiet bc)
                (fst (has "c" (w0 2 quiet bc))) (snd (has "c" (w0 2 quiet bc)))
                eq_refl) as (_ & _ & Hcase).
  exact Hcase.
Defined.


(** A third key in a store of capacity 3 goes last. *)
Lemma X5_witness :
  exists exp,
    cache (self (snd (set "d" 4 Null (w0 3 quiet bc)))) =
      [("b", eb); ("c", ec); ("d", mkEntry 4 exp)].
Proof.
  pose proof (X5_set_of_a_new_key_with_room_appends
                "d" 4 Null (w0 3 quiet bc)
                (fst (set "d" 4 Null (w0 3 quiet bc)))
                (snd (set "d" 4 Null (w0 3 quiet bc)))
                eq_refl eq_refl eq_refl) as (_ & _ & Hc).
  exact Hc.
Defined.


(** Written at 100 with TTL 5, read at 101: the value comes back. *)
Lemma X7_witness :
  fst (get "d" (snd (set "d" 4 (Num (Number_ofZ 5)) (w0 3 quiet bc)))) =
    Normal (Some 4).
Proof.
  exact (X7_set_then_get_round_trip
           "d" 4 (Num (Number_ofZ 5)) (w0 3 quiet bc)
           (snd (set "d" 4 (Num (Number_ofZ 5)) (w0 3 quiet bc))) eq_refl).
Defined.

(** After [get("b")], setting ["d"] in the full store evicts ["c"], not ["b"]. *)
Lemma X8_witness :
  Map_get "b"
    (cache (self (snd (set "d" 4 Undefined (snd (get "b" (w0 2 quiet bc))))))) =
    Some eb.
Proof.
  exact (X8_a_hit_protects_the_key_from_the_next_eviction
           "b" "d" 4 Undefined (w0 2 quiet bc) eb
           bc_bounded eq_refl eq_refl eq_refl eq_refl ltac:(cbn; discriminate)).
Defined.

(** One eviction in the session, one call to the callback. *)
Lemma X10_witness :
  evictions (self (run session (w0 2 quiet []))) - 0 =
  Z.of_nat (List.length (sinkCalls (run session (w0 2 quiet [])))) - 0.
Proof.
  exact (proj2 (X10_evictions_counter_matches_callback_calls
                  session (w0 2 quiet []) quiet eq_refl eq_refl)).
Defined.

(** [new LruCache(2)]: the session leaves the statistics at zero. *)
Lemma X12_witness :
  stats (run session (fresh plain2 clk)) =
    (Normal (mkStats 0 0 0), run session (fresh plain2 clk)).
Proof.
  exact (proj1 (X12_untracked_statistics_stay_zero
                  (Number_ofZ 2) None plain2 clk session eq_refl eq_refl)).
Defined.

(** Reset, then the session: two gets, one eviction. *)
Lemma X13_witness :
  hits (self (run session (snd (resetStats (w0 2 quiet []))))) +
  misses (self (run session (snd (resetStats (w0 2 quiet []))))) = 2 /\
  evictions (self (run session (snd (resetStats (w0 2 quiet []))))) = 1.
Proof.
  pose proof (X13_resetStats_restarts_the_count session (w0 2 quiet []) eq_refl)
    as (_ & _ & _ & _ & Hsum & Hev).
  exact (conj Hsum Hev).
Defined.

(** The keys after the session are distinct and the capacity is still 2. *)
Lemma X15_witness :
  NoDup (Map_keys (cache (self (run session (fresh fresh2 clk))))) /\
  fst (getCapacity (run session (fresh fresh2 clk))) = Normal 2.
Proof.
  pose proof (X15_reachable_states_keep_keys_distinct_and_config_fixed
                (Number_ofZ 2) (Some options2) fresh2 clk session eq_refl)
    as (Hnd & _ & Hcap & _).
  exact (conj Hnd (f_equal fst Hcap)).
Defined.

(** ["b"] has no expiry: the sweep keeps it. *)
Lemma X16_witness :
  Map_get "b" (cache (self (snd (purgeExpired (w0 3 faulty abc))))) = Some eb.
Proof.
  pose proof (X16_purgeExpired_keeps_the_rest_intact
                (w0 3 faulty abc)
                (fst (purgeExpired (w0 3 faulty abc)))
                (snd (purgeExpired (w0 3 faulty abc)))
                Witness.abc_ok eq_refl) as (_ & Hkeep & _).
  exact (Hkeep "b" eb eq_refl eq_refl).
Defined.

(** Set, then delete: [true]. *)
Lemma X17_witness :
  fst (delete "d" (snd (set "d" 4 Null (w0 3 quiet bc)))) = Normal true.
Proof.
  exact (proj2 (proj2 (X17_deleted_and_cleared_keys_are_gone "d" (w0 3 quiet bc)))
           4 Null (snd (set "d" 4 Null (w0 3 quiet bc))) eq_refl).
Defined.

(** A callback that never throws leaves the console empty. *)
Lemma X18_witness : console (run session (w0 2 quiet [])) = [].
Proof.
  exact (proj2 (X18_console_logs_exactly_the_callback_failures
                  session (w0 2 quiet []))
           (fun _ _ _ => eq_refl)).
Defined.

End MoreWitness.
